(** * English-to-Libran converter and sine synthesizer: a shallow embedding

    The development follows [english_to_libran_voice/converter.py] and
    [english_to_libran_voice/synthesizer.py].

    - A Python [str] is a list of code points ([N]); a one-character string
      is a one-element list.
    - A [dict] with string keys is a [gmap]; the caller-supplied dictionary,
      whose items are visited in insertion order, is an association list.
    - A raised exception is the [Raise] branch of the result type [res].
    - The case and class methods of [str] ([lower], [isupper], ...) belong to
      the Python runtime and depend on its Unicode tables.  They are the
      fields of the class [PyRuntime], which fixes their values on Basic
      Latin strings only; every theorem holds for every such runtime.
    - The synthesizer's binary64 arithmetic is idealised: frequencies and the
      symbol duration are rationals, and the sine is the real sine. *)

From Stdlib Require Import ZArith NArith QArith Qround Reals Lra Lia String Ascii.
From Stdlib.Strings Require Import Byte.
From Equations Require Import Equations.
From stdpp Require Import base option list gmap.

Set Default Proof Using "Type".

Abbreviation str := (list N) (only parsing).

(** ** Exceptions *)

Inductive exn : Set :=
| ValueError | TypeError | IndexError | ZeroDivisionError | StructError | WaveError.

Inductive res (A : Type) : Type :=
| Ok (a : A)
| Raise (e : exn).
Arguments Ok {A} a.
Arguments Raise {A} e.

Definition res_bind {A B} (m : res A) (k : A → res B) : res B :=
  match m with
  | Ok a => k a
  | Raise e => Raise e
  end.

Definition res_map {A B} (f : A → B) (m : res A) : res B :=
  res_bind m (λ a, Ok (f a)).

Declare Scope res_scope.
Delimit Scope res_scope with res.
Notation "'let*' x := m 'in' k" := (res_bind m (λ x, k))
  (at level 10, x name, m at level 100, k at level 200) : res_scope.
Local Open Scope res_scope.

(** ** String literals *)

(** [py "abc"] is the Python string ["abc"]. *)
Definition py (s : string) : str := map N_of_ascii (list_ascii_of_string s).

(** [ord]: defined on one-character strings only. *)
Definition ord (s : str) : res N :=
  match s with
  | [c] => Ok c
  | _ => Raise TypeError
  end.

(** ** Character classes of the regular expressions *)

Definition in_range (lo hi c : N) : bool := ((lo <=? c) && (c <=? hi))%N.

Definition is_upper_AZ (c : N) : bool := in_range 65 90 c.
Definition is_lower_az (c : N) : bool := in_range 97 122 c.
Definition is_digit_09 (c : N) : bool := in_range 48 57 c.
Definition apostrophe : N := 39.
Definition space : N := 32.

(** The class [[A-Za-z0-9']] of [_TOKEN_RE]. *)
Definition token_class (c : N) : bool :=
  is_upper_AZ c || is_lower_az c || is_digit_09 c || (c =? apostrophe)%N.

(** The longest prefix of [s] inside the class [p], and what follows it. *)
Fixpoint span_class (p : N → bool) (s : str) : str * str :=
  match s with
  | [] => ([], [])
  | c :: r =>
      if p c then let '(run, rest) := span_class p r in (c :: run, rest)
      else ([], s)
  end.

Lemma span_class_app p s : (span_class p s).1 ++ (span_class p s).2 = s.
Proof.
  induction s as [|c r IH]; simpl; [done|].
  destruct (p c); [|done].
  destruct (span_class p r) as [run rest]; simpl in *. by rewrite IH.
Qed.

Lemma span_class_length p s : length (span_class p s).2 ≤ length s.
Proof.
  rewrite <- (span_class_app p s) at 2. rewrite length_app. lia.
Qed.

Lemma span_class_run p s : Forall (λ c, p c = true) (span_class p s).1.
Proof.
  induction s as [|c r IH]; simpl; [constructor|].
  destruct (p c) eqn:Hc; [|constructor].
  destruct (span_class p r) as [run rest]; simpl in *. by constructor.
Qed.

Lemma span_class_stop p s :
  match (span_class p s).2 with
  | [] => True
  | c :: _ => p c = false
  end.
Proof.
  induction s as [|c r IH]; simpl; [done|].
  destruct (p c) eqn:Hc; [|done].
  destruct (span_class p r) as [run rest]; simpl in *. done.
Qed.

(** ** The tokenizer: [_TOKEN_RE.findall]

    [_TOKEN_RE = [A-Za-z0-9']+|[^A-Za-z0-9']].  At each position the first
    alternative is tried first and is greedy; when the character at hand is
    outside the class the second alternative matches that one character.
    The scan resumes where the match ended. *)

Equations? _TOKEN_RE_findall (text : str) : list str by wf (length text) lt :=
  _TOKEN_RE_findall [] := [];
  _TOKEN_RE_findall (c :: rest) with token_class c => {
    | true := (c :: (span_class token_class rest).1)
                :: _TOKEN_RE_findall (span_class token_class rest).2;
    | false := [c] :: _TOKEN_RE_findall rest }.
Proof.
  all: simpl; try lia.
  pose proof (span_class_length token_class rest). lia.
Qed.

(** ** Regular-expression substitution: [re.sub(r"[class]+", repl, s)]

    Every maximal run of characters of the class [p] is replaced by [repl];
    the other characters are copied. *)

Equations? re_sub_plus (p : N → bool) (repl : str) (s : str) : str
  by wf (length s) lt :=
  re_sub_plus p repl [] := [];
  re_sub_plus p repl (c :: rest) with p c => {
    | true := repl ++ re_sub_plus p repl (span_class p rest).2;
    | false := c :: re_sub_plus p repl rest }.
Proof.
  all: simpl; try lia.
  pose proof (span_class_length p rest). lia.
Qed.

(** ** The [str] methods on Basic Latin

    What CPython's [str.lower], [str.upper], [str.capitalize], [str.isupper],
    [str.isalpha], [str.isalnum], [str.isdigit], [int] and the white-space
    test (shared by [\s] and [str.strip]) do on code points below 128. *)

Definition basic (s : str) : Prop := Forall (λ c, (c < 128)%N) s.
Definition basicb (s : str) : bool := forallb (λ c, (c <? 128)%N) s.

Lemma basicb_basic s : basicb s = true → basic s.
Proof.
  unfold basicb, basic. rewrite forallb_forall, Forall_forall.
  intros H c Hc. apply N.ltb_lt, H. by apply list_elem_of_In.
Qed.

Definition lower_chr (c : N) : N := if is_upper_AZ c then (c + 32)%N else c.
Definition upper_chr (c : N) : N := if is_lower_az c then (c - 32)%N else c.
Definition is_alpha (c : N) : bool := is_upper_AZ c || is_lower_az c.
Definition is_alnum (c : N) : bool := is_alpha c || is_digit_09 c.
(** The truth value of a sequence: [bool(s)]. *)
Definition nonempty {A} (s : list A) : bool := match s with [] => false | _ => true end.

Definition latin_lower (s : str) : str := map lower_chr s.
Definition latin_upper (s : str) : str := map upper_chr s.
Definition latin_capitalize (s : str) : str :=
  match s with
  | [] => []
  | c :: r => upper_chr c :: map lower_chr r
  end.
(** All cased characters are uppercase and there is at least one. *)
Definition latin_isupper (s : str) : bool :=
  forallb (λ c, negb (is_lower_az c)) s && existsb is_upper_AZ s.
Definition latin_isalpha (s : str) : bool := nonempty s && forallb is_alpha s.
Definition latin_isalnum (s : str) : bool := nonempty s && forallb is_alnum s.
Definition latin_isdigit (s : str) : bool := nonempty s && forallb is_digit_09 s.
Definition latin_isspace (c : N) : bool := in_range 9 13 c || in_range 28 32 c.
Definition latin_int (s : str) : option Z :=
  match s with
  | [c] => if is_digit_09 c then Some (Z.of_N c - 48)%Z else None
  | _ => None
  end.

(** ** The Python runtime

    The methods of [str] the program calls, as the runtime provides them.
    On Basic Latin strings they are the functions above; on white space
    [lower] changes nothing (no white-space character is cased).  Nothing
    else is assumed of them. *)

Class PyRuntime : Type := {
  str_lower : str → str;
  str_upper : str → str;
  str_capitalize : str → str;
  str_isupper : str → bool;
  str_isalpha : str → bool;
  str_isalnum : str → bool;
  str_isdigit : str → bool;
  chr_isspace : N → bool;
  str_int : str → option Z;
  lower_basic s : basic s → str_lower s = latin_lower s;
  upper_basic s : basic s → str_upper s = latin_upper s;
  capitalize_basic s : basic s → str_capitalize s = latin_capitalize s;
  isupper_basic s : basic s → str_isupper s = latin_isupper s;
  isalpha_basic s : basic s → str_isalpha s = latin_isalpha s;
  isalnum_basic s : basic s → str_isalnum s = latin_isalnum s;
  isdigit_basic s : basic s → str_isdigit s = latin_isdigit s;
  isspace_basic c : (c < 128)%N → chr_isspace c = latin_isspace c;
  int_basic c : is_digit_09 c = true → str_int [c] = Some (Z.of_N c - 48)%Z;
  lower_space s : Forall (λ c, chr_isspace c = true) s → str_lower s = s
}.

Lemma latin_lower_space s :
  Forall (λ c, latin_isspace c = true) s → latin_lower s = s.
Proof.
  induction 1 as [|c r Hc _ IH]; simpl; [done|]. rewrite IH. f_equal.
  unfold lower_chr, latin_isspace, is_upper_AZ, in_range in *.
  destruct (65 <=? c)%N eqn:H1, (c <=? 90)%N eqn:H2; simpl; try done.
  apply N.leb_le in H1, H2.
  apply orb_true_iff in Hc as [Hc|Hc]; apply andb_true_iff in Hc as [_ Hc];
    apply N.leb_le in Hc; lia.
Qed.

Lemma latin_int_digit c :
  is_digit_09 c = true → latin_int [c] = Some (Z.of_N c - 48)%Z.
Proof. intros Hc. simpl. by rewrite Hc. Qed.

(** The runtime that treats every code point from 128 on as an uncased
    symbol: the reference on which Basic Latin inputs are evaluated. *)
#[export] Instance basic_latin : PyRuntime := {|
  str_lower := latin_lower;
  str_upper := latin_upper;
  str_capitalize := latin_capitalize;
  str_isupper := latin_isupper;
  str_isalpha := latin_isalpha;
  str_isalnum := latin_isalnum;
  str_isdigit := latin_isdigit;
  chr_isspace := latin_isspace;
  str_int := latin_int;
  lower_basic _ _ := eq_refl;
  upper_basic _ _ := eq_refl;
  capitalize_basic _ _ := eq_refl;
  isupper_basic _ _ := eq_refl;
  isalpha_basic _ _ := eq_refl;
  isalnum_basic _ _ := eq_refl;
  isdigit_basic _ _ := eq_refl;
  isspace_basic _ _ := eq_refl;
  int_basic := latin_int_digit;
  lower_space := latin_lower_space
|}.

(** ** converter.py *)

Definition DEFAULT_DICTIONARY : gmap (list N) (list N) :=
  list_to_map [
    (py "hello", py "valori");
    (py "world", py "zenith");
    (py "language", py "oratil");
    (py "voice", py "sonari");
    (py "story", py "mythra");
    (py "friend", py "kaleth");
    (py "journey", py "sereth");
    (py "star", py "lyr");
    (py "light", py "phora");
    (py "shadow", py "umbra")
  ].

Definition _SYLLABLES : list str :=
  [ py "li"; py "ra"; py "ba"; py "no"; py "ka"; py "se";
    py "tu"; py "ven"; py "zor"; py "mi"; py "pha"; py "el" ].

Definition VOWEL_SUFFIXES : gmap (list N) (list N) :=
  list_to_map [
    (py "a", py "ra");
    (py "e", py "ri");
    (py "i", py "la");
    (py "o", py "no");
    (py "u", py "ma")
  ].

Section converter.
Context {RT : PyRuntime}.

(** [str.strip()]: the white space at both ends is cut off. *)
Definition str_lstrip (s : str) : str := (span_class chr_isspace s).2.
Definition str_rstrip (s : str) : str := reverse (str_lstrip (reverse s)).
Definition str_strip (s : str) : str := str_rstrip (str_lstrip s).

(** The class [[^a-z0-9'\s]] of the first substitution. *)
Definition cleaned_class (c : N) : bool :=
  negb (is_lower_az c || is_digit_09 c || (c =? apostrophe)%N || chr_isspace c).

Definition normalize_text (text : str) : str :=
  let lowered := str_lower text in
  let cleaned := re_sub_plus cleaned_class [space] lowered in
  let collapsed := str_strip (re_sub_plus chr_isspace [space] cleaned) in
  collapsed.

(** [_procedural_word]: the loop over [enumerate(word)], appending one
    syllable per character to [pieces]. *)
Fixpoint procedural_loop (syllable_list : list str) (index : nat)
    (word : str) (pieces : list str) : res (list str) :=
  match word with
  | [] => Ok pieces
  | character :: rest =>
      let base := character in
      let syllable_index :=
        ((base + N.of_nat index) mod N.of_nat (length syllable_list))%N in
      match syllable_list !! N.to_nat syllable_index with
      | Some syllable =>
          procedural_loop syllable_list (S index) rest (pieces ++ [syllable])
      | None => Raise IndexError
      end
  end.

Definition _procedural_word (word : str) (syllables : list str) : res str :=
  if nonempty word then
    let syllable_list := syllables in
    if nonempty syllable_list then
      let* pieces := procedural_loop syllable_list 0 word [] in
      let pieces :=
        match last word with
        | Some c =>
            match VOWEL_SUFFIXES !! [c] with
            | Some suffix => pieces ++ [suffix]
            | None => pieces
            end
        | None => pieces
        end in
      Ok (concat pieces)
    else Raise ValueError
  else Ok [].

Definition _apply_casing (source translated : str) : str :=
  if nonempty source then
    if str_isupper source then str_upper translated
    else if str_isupper (take 1 source) then str_capitalize translated
    else translated
  else translated.

(** [{k.lower(): v for k, v in dictionary.items()}]: the items are visited
    in insertion order, a later item replacing an earlier one that has the
    same lowercased key. *)
Definition lowered_keys (dictionary : list (str * str)) : gmap (list N) (list N) :=
  foldl (λ m kv, <[str_lower kv.1 := kv.2]> m) ∅ dictionary.

(** [mapping = {**DEFAULT_DICTIONARY}], then [mapping.update(...)] when the
    caller's dictionary is neither [None] nor empty. *)
Definition effective_mapping (dictionary : option (list (str * str)))
  : gmap (list N) (list N) :=
  let mapping := DEFAULT_DICTIONARY in
  match dictionary with
  | Some (kv :: items) => lowered_keys (kv :: items) ∪ mapping
  | _ => mapping
  end.

(** [not translated], for the result of [mapping.get]: it holds of [None]
    and of the empty string. *)
Definition falsy (translated : option str) : bool :=
  match translated with
  | None | Some [] => true
  | Some _ => false
  end.

(** [token.isalpha() or token.replace("'", "").isalnum()]. *)
Definition word_like (token : str) : bool :=
  str_isalpha token
  || str_isalnum (filter (λ c, c ≠ apostrophe) token).

(** The body of the loop over the tokens. *)
Definition translate_token (mapping : gmap (list N) (list N)) (token : str)
  : res str :=
  if word_like token then
    let lookup_key := str_lower token in
    let translated := mapping !! lookup_key in
    let translated :=
      if falsy translated then
        let normalized := normalize_text token in
        mapping !! normalized
      else translated in
    let* translated :=
      if falsy translated then _procedural_word (normalize_text token) _SYLLABLES
      else Ok (default [] translated) in
    Ok (_apply_casing token translated)
  else Ok token.

Fixpoint translate_tokens (mapping : gmap (list N) (list N)) (tokens : list str)
  : res (list str) :=
  match tokens with
  | [] => Ok []
  | token :: rest =>
      let* t := translate_token mapping token in
      let* ts := translate_tokens mapping rest in
      Ok (t :: ts)
  end.

Definition english_to_libran (text : str) (dictionary : option (list (str * str)))
  : res str :=
  let mapping := effective_mapping dictionary in
  let tokens := _TOKEN_RE_findall text in
  let* translated_tokens := translate_tokens mapping tokens in
  Ok (concat translated_tokens).
End converter.

(** ** synthesizer.py

    Frequencies and the symbol duration are rationals, the decimal literals
    of the source read exactly; the sine and [math.pi] are the real ones.
    [int(x)] truncates toward zero. *)

Definition base_map : gmap (list N) Q :=
  list_to_map [
    (py "a", 440 # 1);
    (py "e", 49388 # 100);
    (py "i", 52325 # 100);
    (py "o", 58733 # 100);
    (py "u", 65925 # 100);
    (py "l", 392 # 1);
    (py "r", 4153 # 10);
    (py "n", 34923 # 100);
    (py "s", 32963 # 100)
  ].

(** [int(x)] on a rational and on a real. *)
Definition Q_to_int (x : Q) : Z := Z.quot (Qnum x) (Z.pos (Qden x)).

Definition R_to_int (x : R) : Z :=
  if Rle_dec 0 x then Int_part x else (- Int_part (- x))%Z.

(** [struct.pack]: little-endian integers of [width] bytes, refused when
    out of range. *)
Definition byte_of_Z (z : Z) : byte :=
  default x00 (Byte.of_N (Z.to_N (z mod 256))).

Definition le_bytes (width : nat) (v : Z) : list byte :=
  map (λ i, byte_of_Z (v / 2 ^ (8 * Z.of_nat i))) (seq 0 width).

Definition pack_unsigned (width : nat) (v : Z) : res (list byte) :=
  if ((0 <=? v) && (v <? 2 ^ (8 * Z.of_nat width)))%Z then Ok (le_bytes width v)
  else Raise StructError.

(** [struct.pack("<h", sample)]. *)
Definition pack_h (sample : Z) : res (list byte) :=
  if ((-32768 <=? sample) && (sample <=? 32767))%Z then Ok (le_bytes 2 sample)
  else Raise StructError.

Definition bytes_of (s : string) : list byte :=
  map byte_of_ascii (list_ascii_of_string s).

(** What [wave.Wave_write] puts before the frames for PCM data of
    [datalength] bytes: the RIFF form, the [fmt ] chunk and the head of the
    [data] chunk, 44 bytes in all. *)
Definition wave_header (nchannels sampwidth framerate datalength : Z)
  : res (list byte) :=
  let* form_length := pack_unsigned 4 (36 + datalength) in
  let* fmt_length := pack_unsigned 4 16 in
  let* format_tag := pack_unsigned 2 1 in
  let* channels := pack_unsigned 2 nchannels in
  let* rate := pack_unsigned 4 framerate in
  let* byte_rate := pack_unsigned 4 (nchannels * framerate * sampwidth) in
  let* block_align := pack_unsigned 2 (nchannels * sampwidth) in
  let* bits := pack_unsigned 2 (sampwidth * 8) in
  let* data_length := pack_unsigned 4 datalength in
  Ok (bytes_of "RIFF" ++ form_length ++ bytes_of "WAVE" ++ bytes_of "fmt "
      ++ fmt_length ++ format_tag ++ channels ++ rate ++ byte_rate
      ++ block_align ++ bits ++ bytes_of "data" ++ data_length).

Record LibranSynthesizer : Type := {
  sample_rate : Z;
  symbol_duration : Q;
  amplitude : Z
}.

Section synthesizer.
Context {RT : PyRuntime}.

Definition _char_frequency (character : str) : res Q :=
  match base_map !! str_lower character with
  | Some frequency => Ok frequency
  | None =>
      if str_isalpha character then
        let* code := ord (str_lower character) in
        let offset := ((Z.of_N code - 97) mod 26)%Z in
        Ok (300 + inject_Z offset * (25 # 2))%Q
      else if str_isdigit character then
        match str_int character with
        | Some digit => Ok (250 + inject_Z digit * 20)%Q
        | None => Raise ValueError
        end
      else Ok 0%Q
  end.

Definition samples_per_symbol (self : LibranSynthesizer) : Z :=
  Q_to_int (inject_Z (sample_rate self) * symbol_duration self).

(** [int(self.amplitude * math.sin(angle))]. *)
Definition tone_sample (self : LibranSynthesizer) (frequency : Q) (index : nat) : Z :=
  let angle := (2 * PI * Q2R frequency * INR index / IZR (sample_rate self))%R in
  R_to_int (IZR (amplitude self) * sin angle).

(** The inner loop, over [range(samples_per_symbol)]. *)
Fixpoint tone_frames (self : LibranSynthesizer) (frequency : Q)
    (indices : list nat) (frames : list byte) : res (list byte) :=
  match indices with
  | [] => Ok frames
  | index :: rest =>
      if (sample_rate self =? 0)%Z then Raise ZeroDivisionError
      else
        let* packed := pack_h (tone_sample self frequency index) in
        tone_frames self frequency rest (frames ++ packed)
  end.

(** The outer loop, over the characters of the text. *)
Fixpoint frames_loop (self : LibranSynthesizer) (samples : nat)
    (text : str) (frames : list byte) : res (list byte) :=
  match text with
  | [] => Ok frames
  | character :: rest =>
      let* frequency := _char_frequency [character] in
      if Qeq_bool frequency 0 then
        frames_loop self samples rest
          (frames ++ concat (replicate samples [x00; x00]))
      else
        let* frames := tone_frames self frequency (seq 0 samples) frames in
        frames_loop self samples rest frames
  end.

Definition _frames_for_text (self : LibranSynthesizer) (text : str)
  : res (list byte) :=
  frames_loop self (Z.to_nat (samples_per_symbol self)) text [].

(** [wave.open(buffer, "wb")], one channel, two bytes a sample, the frame
    rate (refused when not positive), then the frames behind the header. *)
Definition synthesize (self : LibranSynthesizer) (text : str) : res (list byte) :=
  if (sample_rate self <=? 0)%Z then Raise WaveError
  else
    let* frames := _frames_for_text self text in
    let* header :=
      wave_header 1 2 (sample_rate self) (Z.of_nat (length frames)) in
    Ok (header ++ frames).
End synthesizer.

(** * Facts about the scanners *)

Lemma _TOKEN_RE_findall_concat (text : str) :
  concat (_TOKEN_RE_findall text) = text.
Proof.
  funelim (_TOKEN_RE_findall text); simpl.
  - done.
  - match goal with IH : concat _ = _ |- _ => rewrite IH end.
    by rewrite span_class_app.
  - by f_equal.
Qed.

Lemma span_class_true p c r :
  p c = true →
  span_class p (c :: r) = (c :: (span_class p r).1, (span_class p r).2).
Proof. intros Hc. simpl. rewrite Hc. by destruct (span_class p r). Qed.

Lemma span_class_false p c r : p c = false → span_class p (c :: r) = ([], c :: r).
Proof. intros Hc. simpl. by rewrite Hc. Qed.

Lemma span_class_ext p q s :
  Forall (λ c, p c = q c) s → span_class p s = span_class q s.
Proof.
  induction 1 as [|c r Hc _ IH]; simpl; [done|]. by rewrite Hc, IH.
Qed.

Lemma span_class_all p s :
  Forall (λ c, p c = true) s → span_class p s = (s, []).
Proof.
  induction 1 as [|c r Hc _ IH]; simpl; [done|]. by rewrite Hc, IH.
Qed.

(** The substitution as a one-pass scan that remembers whether it is inside
    a run of the class. *)
Fixpoint sub_scan (p : N → bool) (repl : str) (in_run : bool) (s : str) : str :=
  match s with
  | [] => []
  | c :: r =>
      if p c then (if in_run then [] else repl) ++ sub_scan p repl true r
      else c :: sub_scan p repl false r
  end.

Lemma re_sub_plus_scan_both p repl s :
  re_sub_plus p repl s = sub_scan p repl false s ∧
  re_sub_plus p repl (span_class p s).2 = sub_scan p repl true s.
Proof.
  induction s as [|c r [IH1 IH2]].
  - simpl. simp re_sub_plus. done.
  - destruct (p c) eqn:Hc.
    + rewrite span_class_true by done. simp re_sub_plus. rewrite Hc. simpl.
      rewrite Hc, IH2. by split.
    + rewrite span_class_false by done. simpl snd. simp re_sub_plus.
      rewrite Hc. simpl.
      rewrite Hc, IH1. by split.
Qed.

Lemma re_sub_plus_scan p repl s : re_sub_plus p repl s = sub_scan p repl false s.
Proof. apply re_sub_plus_scan_both. Qed.

Lemma sub_scan_ext p q repl b s :
  Forall (λ c, p c = q c) s → sub_scan p repl b s = sub_scan q repl b s.
Proof.
  intros H. revert b. induction H as [|c r Hc _ IH]; intros b; simpl; [done|].
  by rewrite Hc, !IH.
Qed.

Lemma sub_scan_Forall (P : N → Prop) p repl b s :
  Forall P repl → Forall (λ c, p c = false → P c) s →
  Forall P (sub_scan p repl b s).
Proof.
  intros Hrepl H. revert b. induction H as [|c r Hc _ IH]; intros b; simpl.
  - constructor.
  - destruct (p c) eqn:Hpc.
    + apply Forall_app. split; [by destruct b|apply IH].
    + constructor; [by apply Hc|apply IH].
Qed.

Lemma sub_scan_id p repl b s :
  Forall (λ c, p c = false) s → sub_scan p repl b s = s.
Proof.
  intros H. revert b. induction H as [|c r Hc _ IH]; intros b; simpl; [done|].
  by rewrite Hc, IH.
Qed.

Lemma sub_scan_all p repl s :
  Forall (λ c, p c = true) s → sub_scan p repl true s = [].
Proof.
  induction 1 as [|c r Hc _ IH]; simpl; [done|]. by rewrite Hc, IH.
Qed.

(** No two neighbours of the list are both in the class [p]. *)
Fixpoint separated (p : N → bool) (s : str) : Prop :=
  match s with
  | [] => True
  | a :: r =>
      match r with
      | [] => True
      | b :: _ => p a = false ∨ p b = false
      end ∧ separated p r
  end.

Definition head_outside (p : N → bool) (s : str) : Prop :=
  match s with
  | [] => True
  | c :: _ => p c = false
  end.

(** Collapsing the runs of [p] into one character of [p] leaves no two
    neighbours in [p]. *)
Lemma sub_scan_separated p x b s :
  p x = true →
  separated p (sub_scan p [x] b s) ∧
  (b = true → head_outside p (sub_scan p [x] b s)).
Proof.
  intros Hx. revert b. induction s as [|c r IH]; intros b; simpl; [done|].
  destruct (p c) eqn:Hc.
  - destruct (IH true) as [IH1 IH2]. destruct b; simpl.
    + split; [done|]. intros _. by apply IH2.
    + split; [|done]. split; [|done].
      specialize (IH2 eq_refl). destruct (sub_scan p [x] true r); [done|].
      by right.
  - destruct (IH false) as [IH1 _]. split; [|done]. simpl. split; [|done].
    destruct (sub_scan p [x] false r); [done|]. by left.
Qed.

Lemma separated_app_r p s t : separated p (s ++ t) → separated p t.
Proof. induction s as [|a r IH]; simpl; [done|]. intros [_ H]. by apply IH. Qed.

Lemma separated_app_l p s t : separated p (s ++ t) → separated p s.
Proof.
  induction s as [|a r IH]; simpl; [done|]. intros [H1 H2]. split; [|by apply IH].
  destruct r as [|b r']; [done|]. done.
Qed.

Lemma separated_lookup p s i a b :
  separated p s → s !! i = Some a → s !! S i = Some b →
  p a = false ∨ p b = false.
Proof.
  revert i. induction s as [|x r IH]; intros i; [done|].
  intros [H1 H2] Ha Hb. destruct i as [|i]; simpl in *.
  - destruct r as [|y r']; simplify_eq/=. done.
  - by eapply IH.
Qed.

(** * Facts about [normalize_text] *)

(** The class [[a-z0-9']] and the class [[a-z0-9' ]] of the normalized text. *)
Definition kept_class (c : N) : bool :=
  is_lower_az c || is_digit_09 c || (c =? apostrophe)%N.
Definition normal_class (c : N) : bool := kept_class c || (c =? space)%N.

Lemma basic_lower_chr c : (c < 128)%N → (lower_chr c < 128)%N.
Proof.
  unfold lower_chr, is_upper_AZ, in_range. intros Hc.
  destruct (65 <=? c)%N eqn:H1, (c <=? 90)%N eqn:H2; simpl; try done.
  apply N.leb_le in H2. lia.
Qed.

Lemma basic_upper_chr c : (c < 128)%N → (upper_chr c < 128)%N.
Proof.
  unfold upper_chr, is_lower_az, in_range. intros Hc.
  destruct (97 <=? c)%N eqn:H1, (c <=? 122)%N eqn:H2; simpl; try done. lia.
Qed.

Lemma basic_latin_lower s : basic s → basic (latin_lower s).
Proof.
  unfold basic, latin_lower. rewrite Forall_fmap. intros H.
  eapply Forall_impl; [exact H|]. intros c. apply basic_lower_chr.
Qed.

Lemma basic_latin_upper s : basic s → basic (latin_upper s).
Proof.
  unfold basic, latin_upper. rewrite Forall_fmap. intros H.
  eapply Forall_impl; [exact H|]. intros c. apply basic_upper_chr.
Qed.

Lemma basic_latin_capitalize s : basic s → basic (latin_capitalize s).
Proof.
  destruct 1 as [|c r Hc Hr]; simpl; [constructor|].
  constructor; [by apply basic_upper_chr|]. by apply basic_latin_lower.
Qed.

Section normalize_facts.
Context {RT : PyRuntime}.

Lemma isspace_space : chr_isspace space = true.
Proof. by rewrite isspace_basic. Qed.

Lemma lstrip_suffix s : (span_class chr_isspace s).1 ++ str_lstrip s = s.
Proof. apply span_class_app. Qed.

Lemma lstrip_head s : head_outside chr_isspace (str_lstrip s).
Proof. apply span_class_stop. Qed.

Lemma rstrip_prefix s : ∃ ws, s = str_rstrip s ++ ws.
Proof.
  exists (reverse (span_class chr_isspace (reverse s)).1).
  unfold str_rstrip. rewrite <- reverse_app, lstrip_suffix.
  by rewrite reverse_involutive.
Qed.

Lemma rstrip_last s c : last (str_rstrip s) = Some c → chr_isspace c = false.
Proof.
  unfold str_rstrip. rewrite last_reverse.
  pose proof (lstrip_head (reverse s)) as H.
  destruct (str_lstrip (reverse s)); simpl in *; congruence.
Qed.

Lemma strip_infix s : ∃ l r, s = l ++ str_strip s ++ r.
Proof.
  destruct (rstrip_prefix (str_lstrip s)) as [r Hr].
  exists (span_class chr_isspace s).1, r. unfold str_strip.
  by rewrite <- Hr, lstrip_suffix.
Qed.

Lemma strip_head s : head_outside chr_isspace (str_strip s).
Proof.
  unfold str_strip. destruct (rstrip_prefix (str_lstrip s)) as [r Hr].
  pose proof (lstrip_head s) as H. rewrite Hr in H.
  by destruct (str_rstrip (str_lstrip s)).
Qed.

Lemma strip_all_space s :
  Forall (λ c, chr_isspace c = true) s → str_strip s = [].
Proof.
  intros H. unfold str_strip, str_lstrip. by rewrite span_class_all.
Qed.

(** After the first substitution only [[a-z0-9']] and white space remain. *)
Lemma cleaned_chars s :
  Forall (λ c, kept_class c = true ∨ chr_isspace c = true)
         (re_sub_plus cleaned_class [space] s).
Proof.
  rewrite re_sub_plus_scan. apply sub_scan_Forall.
  - constructor; [|constructor]. right. apply isspace_space.
  - apply Forall_forall. intros c _. unfold cleaned_class, kept_class.
    rewrite negb_false_iff, orb_true_iff. tauto.
Qed.

(** After the second one the only white space left is the space. *)
Lemma collapsed_chars s :
  Forall (λ c, kept_class c = true ∨ chr_isspace c = true) s →
  Forall (λ c, normal_class c = true) (re_sub_plus chr_isspace [space] s).
Proof.
  intros H. rewrite re_sub_plus_scan. apply sub_scan_Forall.
  - by repeat constructor.
  - eapply Forall_impl; [exact H|]. intros c [Hc|Hc] Hs; [|congruence].
    unfold normal_class. by rewrite Hc.
Qed.

Lemma collapsed_separated s :
  separated chr_isspace (re_sub_plus chr_isspace [space] s).
Proof.
  rewrite re_sub_plus_scan. by apply sub_scan_separated, isspace_space.
Qed.

Lemma normalize_text_chars text :
  Forall (λ c, normal_class c = true) (normalize_text text).
Proof.
  unfold normalize_text.
  pose proof (collapsed_chars _ (cleaned_chars (str_lower text))) as H.
  destruct (strip_infix (re_sub_plus chr_isspace [space]
    (re_sub_plus cleaned_class [space] (str_lower text)))) as (l & r & Heq).
  rewrite Heq in H. by apply Forall_app in H as [_ [H _]%Forall_app].
Qed.

Lemma normalize_text_separated text :
  separated chr_isspace (normalize_text text).
Proof.
  unfold normalize_text.
  pose proof (collapsed_separated
    (re_sub_plus cleaned_class [space] (str_lower text))) as H.
  destruct (strip_infix (re_sub_plus chr_isspace [space]
    (re_sub_plus cleaned_class [space] (str_lower text)))) as (l & r & Heq).
  rewrite Heq in H. by apply separated_app_r, separated_app_l in H.
Qed.

Lemma normalize_text_space text :
  Forall (λ c, chr_isspace c = true) text → normalize_text text = [].
Proof.
  intros H. unfold normalize_text. rewrite lower_space by done.
  rewrite (re_sub_plus_scan cleaned_class), sub_scan_id.
  - apply strip_all_space. rewrite re_sub_plus_scan.
    apply sub_scan_Forall.
    + constructor; [apply isspace_space|constructor].
    + eapply Forall_impl; [exact H|]. by intros c Hc _.
  - eapply Forall_impl; [exact H|]. intros c Hc. unfold cleaned_class.
    rewrite Hc. by rewrite !orb_true_r.
Qed.

End normalize_facts.

(** On Basic Latin text every runtime normalizes as the reference does. *)
Section normalize_basic.
Context {RT : PyRuntime}.

Lemma cleaned_class_basic c :
  (c < 128)%N → cleaned_class c = cleaned_class (RT := basic_latin) c.
Proof. intros Hc. unfold cleaned_class. by rewrite isspace_basic. Qed.

Lemma strip_basic s : basic s → str_strip s = str_strip (RT := basic_latin) s.
Proof.
  intros Hs.
  assert (∀ t, basic t → str_lstrip t = str_lstrip (RT := basic_latin) t) as Hl.
  { intros t Ht. unfold str_lstrip. f_equal. apply span_class_ext.
    eapply Forall_impl; [exact Ht|]. intros c Hc. by apply isspace_basic. }
  unfold str_strip. rewrite (Hl s) by done. unfold str_rstrip. rewrite Hl; [done|].
  apply Forall_reverse. rewrite <- (lstrip_suffix (RT := basic_latin) s) in Hs.
  by apply Forall_app in Hs as [_ Hs].
Qed.

Lemma normalize_text_basic text :
  basic text → normalize_text text = normalize_text (RT := basic_latin) text.
Proof.
  intros Ht. unfold normalize_text. rewrite lower_basic by done. simpl str_lower.
  assert (basic (latin_lower text)) as Hlow by by apply basic_latin_lower.
  assert (re_sub_plus cleaned_class [space] (latin_lower text)
          = re_sub_plus (cleaned_class (RT := basic_latin)) [space] (latin_lower text))
    as Hclean.
  { rewrite !re_sub_plus_scan. apply sub_scan_ext.
    eapply Forall_impl; [exact Hlow|]. intros c. apply cleaned_class_basic. }
  rewrite Hclean.
  assert (basic (re_sub_plus (cleaned_class (RT := basic_latin)) [space]
                   (latin_lower text))) as Hb.
  { rewrite re_sub_plus_scan. apply sub_scan_Forall; [by repeat constructor|].
    eapply Forall_impl; [exact Hlow|]. done. }
  generalize dependent (re_sub_plus (cleaned_class (RT := basic_latin)) [space]
                          (latin_lower text)).
  intros cleaned _ Hb.
  assert (re_sub_plus chr_isspace [space] cleaned
          = re_sub_plus (chr_isspace (PyRuntime := basic_latin)) [space] cleaned)
    as Hcoll.
  { rewrite !re_sub_plus_scan. apply sub_scan_ext.
    eapply Forall_impl; [exact Hb|]. intros c. apply isspace_basic. }
  rewrite Hcoll. apply strip_basic.
  rewrite re_sub_plus_scan. apply sub_scan_Forall; [by repeat constructor|].
  eapply Forall_impl; [exact Hb|]. done.
Qed.
End normalize_basic.

(** * Facts about [_procedural_word] *)

(** The generator as the specification words it: the syllable chosen for
    the character [c] at position [i], and the suffix of the five vowels. *)
Definition syllable_at (syllable_table : list str) (i : nat) (c : N) : str :=
  nth (N.to_nat ((c + N.of_nat i) mod N.of_nat (length syllable_table)))
      syllable_table [].

Definition is_vowel (c : N) : bool :=
  (c =? 97)%N || (c =? 101)%N || (c =? 105)%N || (c =? 111)%N || (c =? 117)%N.

Definition vowel_suffix (c : N) : str :=
  if (c =? 97)%N then py "ra"
  else if (c =? 101)%N then py "ri"
  else if (c =? 105)%N then py "la"
  else if (c =? 111)%N then py "no"
  else if (c =? 117)%N then py "ma"
  else [].

Definition generate (word : str) (syllable_table : list str) : str :=
  concat (imap (syllable_at syllable_table) word)
  ++ match last word with
     | Some c => if is_vowel c then vowel_suffix c else []
     | None => []
     end.

Lemma syllable_lookup (syllable_table : list str) i c :
  syllable_table ≠ [] →
  syllable_table !! N.to_nat ((c + N.of_nat i) mod N.of_nat (length syllable_table))
  = Some (syllable_at syllable_table i c).
Proof.
  intros Hne. unfold syllable_at.
  assert (length syllable_table ≠ 0) as Hlen by by destruct syllable_table.
  assert (N.to_nat ((c + N.of_nat i) mod N.of_nat (length syllable_table))
          < length syllable_table) as Hlt.
  { pose proof (N.mod_upper_bound (c + N.of_nat i) (N.of_nat (length syllable_table))).
    lia. }
  destruct (lookup_lt_is_Some_2 _ _ Hlt) as [x Hx].
  rewrite Hx. f_equal. symmetry. by apply nth_lookup_Some.
Qed.

Lemma procedural_loop_spec (syllable_table : list str) i word pieces :
  syllable_table ≠ [] →
  procedural_loop syllable_table i word pieces
  = Ok (pieces ++ imap (λ j, syllable_at syllable_table (i + j)) word).
Proof.
  intros Hne. revert i pieces. induction word as [|c rest IH]; intros i pieces.
  - simpl. by rewrite app_nil_r.
  - simpl. rewrite syllable_lookup by done. rewrite IH.
    rewrite <- app_assoc. simpl. rewrite Nat.add_0_r. do 3 f_equal.
    apply imap_ext. intros j x _. simpl. f_equal. lia.
Qed.

Lemma VOWEL_SUFFIXES_lookup c :
  VOWEL_SUFFIXES !! [c] = if is_vowel c then Some (vowel_suffix c) else None.
Proof.
  unfold VOWEL_SUFFIXES, is_vowel, vowel_suffix.
  change (py "a") with [97%N]. change (py "e") with [101%N].
  change (py "i") with [105%N]. change (py "o") with [111%N].
  change (py "u") with [117%N]. simpl list_to_map.
  repeat match goal with
  | |- context [(c =? ?n)%N] =>
      destruct (N.eqb_spec c n) as [->|?]; simpl;
      [by repeat (rewrite lookup_insert_ne by by inversion 1);
          rewrite lookup_insert_eq|
       rewrite lookup_insert_ne by (intros [=]; congruence)]
  end.
  by rewrite lookup_empty.
Qed.

Lemma _procedural_word_generate word (syllable_table : list str) :
  word ≠ [] → syllable_table ≠ [] →
  _procedural_word word syllable_table = Ok (generate word syllable_table).
Proof.
  intros Hw Ht. unfold _procedural_word, generate.
  destruct word as [|c w]; [done|]. destruct syllable_table as [|t ts]; [done|].
  cbv [nonempty]. rewrite procedural_loop_spec by done. cbn [res_bind app].
  destruct (last (c :: w)) as [l|]; [|by rewrite app_nil_r].
  rewrite VOWEL_SUFFIXES_lookup.
  destruct (is_vowel l); [|by rewrite app_nil_r].
  by rewrite concat_app; simpl; rewrite app_nil_r.
Qed.

(** * Facts about the effective dictionary *)

Section dictionary_facts.
Context {RT : PyRuntime}.

(** The value the caller gives for the lowercased key [key]: that of the
    last item of the caller's dictionary whose key, lowercased, is [key]. *)
Fixpoint caller_entry (dictionary : list (str * str)) (key : str) : option str :=
  match dictionary with
  | [] => None
  | (k, v) :: items =>
      match caller_entry items key with
      | Some v' => Some v'
      | None => if decide (str_lower k = key) then Some v else None
      end
  end.

(** The overlay as the specification words it: caller entries win, the
    default entries remain for the other keys. *)
Definition overlay (dictionary : option (list (str * str))) (key : str) : option str :=
  match dictionary with
  | None => DEFAULT_DICTIONARY !! key
  | Some items =>
      match caller_entry items key with
      | Some v => Some v
      | None => DEFAULT_DICTIONARY !! key
      end
  end.

Lemma foldl_lowered_lookup (items : list (str * str)) (m : gmap (list N) (list N)) key :
  foldl (λ m kv, <[str_lower kv.1 := kv.2]> m) m items !! key
  = match caller_entry items key with
    | Some v => Some v
    | None => m !! key
    end.
Proof.
  revert m. induction items as [|[k v] items IH]; intros m; simpl; [done|].
  rewrite IH. destruct (caller_entry items key); [done|].
  destruct (decide (str_lower k = key)) as [->|Hne].
  - by rewrite lookup_insert_eq.
  - by rewrite lookup_insert_ne.
Qed.

Lemma effective_mapping_lookup dictionary key :
  effective_mapping dictionary !! key = overlay dictionary key.
Proof.
  unfold effective_mapping, overlay.
  destruct dictionary as [[|kv items]|]; [done| |done].
  unfold lowered_keys. rewrite lookup_union, foldl_lowered_lookup.
  rewrite lookup_empty.
  destruct (caller_entry (kv :: items) key); [|by rewrite (left_id None _)].
  by destruct (DEFAULT_DICTIONARY !! key).
Qed.

Lemma caller_entry_elem items key v :
  caller_entry items key = Some v → ∃ k, (k, v) ∈ items ∧ str_lower k = key.
Proof.
  induction items as [|[k w] items IH]; simpl; [done|].
  destruct (caller_entry items key) as [v'|].
  - intros [= ->]. destruct (IH eq_refl) as (k' & Hin & Hk).
    exists k'. split; [by right|done].
  - destruct (decide (str_lower k = key)) as [Hk|]; [|done].
    intros [= ->]. exists k. split; [by left|done].
Qed.
End dictionary_facts.

(** * Facts about the translation loop *)

(** The pseudo-word of [english_to_libran]: [_procedural_word] with the
    default syllable table, which is not empty. *)
Definition procedural (word : str) : str :=
  match word with
  | [] => []
  | _ => generate word _SYLLABLES
  end.

Lemma _procedural_word_SYLLABLES word :
  _procedural_word word _SYLLABLES = Ok (procedural word).
Proof.
  destruct word as [|c w]; [done|].
  by rewrite _procedural_word_generate.
Qed.

Section translation_facts.
Context {RT : PyRuntime}.

(** The translation chosen for a word-like token, before its casing is
    restored. *)
Definition chosen (mapping : gmap (list N) (list N)) (token : str) : str :=
  let translated := mapping !! str_lower token in
  let translated :=
    if falsy translated then mapping !! normalize_text token else translated in
  if falsy translated then procedural (normalize_text token)
  else default [] translated.

Definition translated_token (mapping : gmap (list N) (list N)) (token : str) : str :=
  if word_like token then _apply_casing token (chosen mapping token) else token.

Lemma translate_token_ok mapping token :
  translate_token mapping token = Ok (translated_token mapping token).
Proof.
  unfold translate_token, translated_token, chosen.
  destruct (word_like token); [|done].
  destruct (falsy (if falsy (mapping !! str_lower token)
                   then mapping !! normalize_text token
                   else mapping !! str_lower token)); [|done].
  by rewrite _procedural_word_SYLLABLES.
Qed.

Lemma translate_tokens_ok mapping tokens :
  translate_tokens mapping tokens = Ok (map (translated_token mapping) tokens).
Proof.
  induction tokens as [|t ts IH]; simpl; [done|].
  by rewrite translate_token_ok, IH.
Qed.

Lemma english_to_libran_ok text dictionary :
  english_to_libran text dictionary
  = Ok (concat (map (translated_token (effective_mapping dictionary))
                    (_TOKEN_RE_findall text))).
Proof. unfold english_to_libran. by rewrite translate_tokens_ok. Qed.
End translation_facts.

(** ** Basic Latin stays Basic Latin *)

Definition basic_map (m : gmap (list N) (list N)) : Prop :=
  ∀ k v, m !! k = Some v → basic v.

Definition basic_items (dictionary : option (list (str * str))) : Prop :=
  match dictionary with
  | None => True
  | Some items => Forall (λ kv, basic kv.1 ∧ basic kv.2) items
  end.

Lemma basic_py_syllables : Forall basic _SYLLABLES.
Proof. repeat constructor. Qed.

Lemma basic_syllable_at (table : list str) i c :
  Forall basic table → basic (syllable_at table i c).
Proof.
  intros Ht. unfold syllable_at.
  destruct (nth_in_or_default
    (N.to_nat ((c + N.of_nat i) mod N.of_nat (length table))) table [])
    as [Hin| ->]; [|constructor].
  rewrite Forall_forall in Ht. by apply Ht, list_elem_of_In.
Qed.

Lemma basic_vowel_suffix c : basic (vowel_suffix c).
Proof.
  unfold vowel_suffix.
  repeat (case_match; [repeat constructor|]). constructor.
Qed.

Lemma basic_generate word (table : list str) :
  Forall basic table → basic (generate word table).
Proof.
  intros Ht. unfold generate. apply Forall_app. split.
  - apply Forall_concat. generalize (syllable_at table) (basic_syllable_at table).
    intros f Hf. revert f Hf. induction word as [|c w IH]; intros f Hf; simpl.
    + constructor.
    + constructor; [by apply Hf|]. apply IH. intros i c'. by apply Hf.
  - destruct (last word); [|constructor].
    destruct (is_vowel n); [apply basic_vowel_suffix|constructor].
Qed.

Lemma basic_procedural word : basic (procedural word).
Proof.
  destruct word; [constructor|]. apply basic_generate, basic_py_syllables.
Qed.

Lemma basic_DEFAULT_DICTIONARY : basic_map DEFAULT_DICTIONARY.
Proof.
  intros k v. unfold DEFAULT_DICTIONARY. simpl list_to_map.
  repeat (rewrite lookup_insert; case_decide;
          [intros [= <-]; by apply basicb_basic|]).
  by rewrite lookup_empty.
Qed.

Lemma findall_basic text : basic text → Forall basic (_TOKEN_RE_findall text).
Proof.
  intros Ht. apply Forall_concat. by rewrite _TOKEN_RE_findall_concat.
Qed.

Lemma basic_filter (P : N → Prop) `{∀ c, Decision (P c)} s :
  basic s → basic (filter P s).
Proof.
  induction 1 as [|c r Hc _ IH]; [constructor|].
  rewrite filter_cons. case_decide; [by constructor|done].
Qed.

Lemma basic_apply_casing source translated :
  basic translated → basic (_apply_casing (RT := basic_latin) source translated).
Proof.
  intros Ht. unfold _apply_casing.
  repeat case_match; try done.
  - by apply basic_latin_upper.
  - by apply basic_latin_capitalize.
Qed.

Section transfer.
Context {RT : PyRuntime}.

Lemma basic_effective_mapping dictionary :
  basic_items dictionary → basic_map (effective_mapping dictionary).
Proof.
  intros Hd k v. rewrite effective_mapping_lookup. unfold overlay.
  destruct dictionary as [items|]; [|apply basic_DEFAULT_DICTIONARY].
  destruct (caller_entry items k) as [v'|] eqn:He; [|apply basic_DEFAULT_DICTIONARY].
  intros [= ->]. apply caller_entry_elem in He as (k' & Hin & _).
  simpl in Hd. rewrite Forall_forall in Hd. by apply (Hd _ Hin).
Qed.

Lemma basic_chosen mapping token : basic_map mapping → basic (chosen mapping token).
Proof.
  intros Hm. unfold chosen.
  destruct (mapping !! str_lower token) as [[|c v]|] eqn:H1; simpl.
  - destruct (mapping !! normalize_text token) as [[|c v]|] eqn:H2; simpl.
    + apply basic_procedural.
    + by eapply Hm.
    + apply basic_procedural.
  - by eapply Hm.
  - destruct (mapping !! normalize_text token) as [[|c v]|] eqn:H2; simpl.
    + apply basic_procedural.
    + by eapply Hm.
    + apply basic_procedural.
Qed.

Lemma word_like_basic token :
  basic token → word_like token = word_like (RT := basic_latin) token.
Proof.
  intros Ht. unfold word_like. rewrite isalpha_basic by done.
  rewrite isalnum_basic; [done|]. by apply basic_filter.
Qed.

Lemma chosen_basic mapping token :
  basic token → chosen mapping token = chosen (RT := basic_latin) mapping token.
Proof.
  intros Ht. unfold chosen.
  by rewrite lower_basic, normalize_text_basic.
Qed.

Lemma apply_casing_basic source translated :
  basic source → basic translated →
  _apply_casing source translated
  = _apply_casing (RT := basic_latin) source translated.
Proof.
  intros Hs Ht. unfold _apply_casing.
  rewrite (isupper_basic source), (isupper_basic (take 1 source)),
    upper_basic, capitalize_basic; try done.
  by apply Forall_take.
Qed.

Lemma translated_token_basic mapping token :
  basic token → basic_map mapping →
  translated_token mapping token
  = translated_token (RT := basic_latin) mapping token.
Proof.
  intros Ht Hm. unfold translated_token.
  rewrite word_like_basic by done.
  destruct (word_like token); [|done].
  rewrite apply_casing_basic; [|done|by apply basic_chosen].
  by rewrite chosen_basic.
Qed.

Lemma effective_mapping_basic dictionary :
  basic_items dictionary →
  effective_mapping dictionary = effective_mapping (RT := basic_latin) dictionary.
Proof.
  intros Hd. apply map_eq. intros k.
  rewrite !effective_mapping_lookup. unfold overlay.
  destruct dictionary as [items|]; [|done].
  assert (caller_entry items k = caller_entry (RT := basic_latin) items k) as ->; [|done].
  simpl in Hd. induction Hd as [|[k' v] items [Hk _] _ IH]; simpl; [done|].
  rewrite IH. by rewrite lower_basic.
Qed.

(** On Basic Latin text and a Basic Latin dictionary every runtime
    translates as the reference does. *)
Lemma english_to_libran_basic text dictionary :
  basic text → basic_items dictionary →
  english_to_libran text dictionary
  = english_to_libran (RT := basic_latin) text dictionary.
Proof.
  intros Ht Hd. rewrite !english_to_libran_ok. do 2 f_equal.
  rewrite <- effective_mapping_basic by done.
  apply map_ext_Forall, Forall_forall. intros token Hin.
  apply translated_token_basic.
  - pose proof (findall_basic text Ht) as H. rewrite Forall_forall in H.
    by apply H.
  - by apply basic_effective_mapping.
Qed.
End transfer.

Lemma basic_translated_token mapping token :
  basic token → basic_map mapping →
  basic (translated_token (RT := basic_latin) mapping token).
Proof.
  intros Ht Hm. unfold translated_token. case_match; [|done].
  by apply basic_apply_casing, basic_chosen.
Qed.

Lemma basic_english_to_libran text dictionary out :
  basic text → basic_items dictionary →
  english_to_libran (RT := basic_latin) text dictionary = Ok out → basic out.
Proof.
  intros Ht Hd. rewrite english_to_libran_ok. intros [= <-].
  apply Forall_concat, Forall_fmap, Forall_forall. intros token Hin.
  apply basic_translated_token.
  - pose proof (findall_basic text Ht) as H. rewrite Forall_forall in H.
    by apply H.
  - by apply basic_effective_mapping.
Qed.

(** * Case-only variants on the reference runtime *)

Ltac chr_cases :=
  unfold token_class, is_alnum, is_alpha, lower_chr, upper_chr, is_upper_AZ,
    is_lower_az, is_digit_09, in_range, apostrophe in *;
  repeat (match goal with
          | |- context [(?a <=? ?b)%N] => destruct (N.leb_spec a b)
          | |- context [(?a =? ?b)%N] => destruct (N.eqb_spec a b)
          end; cbn [andb orb negb] in *);
  try reflexivity; try lia.

Lemma lower_chr_idem c : lower_chr (lower_chr c) = lower_chr c.
Proof. chr_cases. Qed.

Lemma lower_upper_chr c : lower_chr (upper_chr c) = lower_chr c.
Proof. chr_cases. Qed.

Lemma token_class_lower c : token_class (lower_chr c) = token_class c.
Proof. chr_cases. Qed.

Lemma is_alpha_lower c : is_alpha (lower_chr c) = is_alpha c.
Proof. chr_cases. Qed.

Lemma is_alnum_lower c : is_alnum (lower_chr c) = is_alnum c.
Proof. chr_cases. Qed.

Lemma apostrophe_lower c : lower_chr c = apostrophe ↔ c = apostrophe.
Proof. unfold lower_chr, is_upper_AZ, in_range, apostrophe. case_match; [|done].
  apply andb_true_iff in H as [H1%N.leb_le H2%N.leb_le]. lia.
Qed.

Lemma latin_lower_idem s : latin_lower (latin_lower s) = latin_lower s.
Proof.
  unfold latin_lower. rewrite map_map. apply map_ext. apply lower_chr_idem.
Qed.

Lemma latin_lower_upper s : latin_lower (latin_upper s) = latin_lower s.
Proof.
  unfold latin_lower, latin_upper. rewrite map_map. apply map_ext.
  apply lower_upper_chr.
Qed.

Lemma latin_lower_capitalize s : latin_lower (latin_capitalize s) = latin_lower s.
Proof.
  destruct s as [|c r]; [done|]. simpl. rewrite lower_upper_chr. f_equal.
  apply latin_lower_idem.
Qed.

Lemma latin_lower_concat (ls : list str) :
  latin_lower (concat ls) = concat (map latin_lower ls).
Proof. unfold latin_lower. apply concat_map. Qed.

Lemma span_class_lower s :
  span_class token_class (latin_lower s)
  = (latin_lower (span_class token_class s).1,
     latin_lower (span_class token_class s).2).
Proof.
  induction s as [|c r IH]; [done|].
  change (latin_lower (c :: r)) with (lower_chr c :: latin_lower r).
  destruct (token_class c) eqn:Hc.
  - rewrite !span_class_true by by rewrite ?token_class_lower. by rewrite IH.
  - by rewrite !span_class_false by by rewrite ?token_class_lower.
Qed.

(** Lowercasing Basic Latin text lowercases its tokens, one by one. *)
Lemma findall_lower text :
  _TOKEN_RE_findall (latin_lower text) = map latin_lower (_TOKEN_RE_findall text).
Proof.
  funelim (_TOKEN_RE_findall text).
  - done.
  - change (latin_lower (c :: rest)) with (lower_chr c :: latin_lower rest).
    simp _TOKEN_RE_findall. rewrite token_class_lower, Heq. simpl.
    rewrite span_class_lower. simpl. by f_equal.
  - change (latin_lower (c :: rest)) with (lower_chr c :: latin_lower rest).
    simp _TOKEN_RE_findall. rewrite token_class_lower, Heq. simpl. by f_equal.
Qed.

Lemma forallb_lower (p : N → bool) s :
  (∀ c, p (lower_chr c) = p c) → forallb p (latin_lower s) = forallb p s.
Proof.
  intros Hp. induction s as [|c r IH]; simpl; [done|]. by rewrite Hp, IH.
Qed.

Lemma filter_apostrophe_lower s :
  filter (λ c, c ≠ apostrophe) (latin_lower s)
  = latin_lower (filter (λ c, c ≠ apostrophe) s).
Proof.
  induction s as [|c r IH]; [done|].
  change (latin_lower (c :: r)) with (lower_chr c :: latin_lower r).
  rewrite !filter_cons, IH.
  destruct (decide (lower_chr c ≠ apostrophe)) as [H1|H1],
           (decide (c ≠ apostrophe)) as [H2|H2]; try done.
  - by rewrite apostrophe_lower in H1.
  - exfalso. apply H1. intros H. by apply (proj1 (apostrophe_lower c)) in H.
Qed.

Lemma nonempty_lower s : nonempty (latin_lower s) = nonempty s.
Proof. by destruct s. Qed.

Lemma word_like_lower token :
  word_like (RT := basic_latin) (latin_lower token)
  = word_like (RT := basic_latin) token.
Proof.
  unfold word_like. simpl. unfold latin_isalpha, latin_isalnum.
  rewrite filter_apostrophe_lower, !nonempty_lower.
  rewrite (forallb_lower is_alpha) by apply is_alpha_lower.
  by rewrite (forallb_lower is_alnum) by apply is_alnum_lower.
Qed.

Lemma normalize_text_lower token :
  normalize_text (RT := basic_latin) (latin_lower token)
  = normalize_text (RT := basic_latin) token.
Proof. unfold normalize_text. simpl. by rewrite latin_lower_idem. Qed.

Lemma chosen_lower mapping token :
  chosen (RT := basic_latin) mapping (latin_lower token)
  = chosen (RT := basic_latin) mapping token.
Proof.
  unfold chosen. rewrite normalize_text_lower. simpl.
  by rewrite latin_lower_idem.
Qed.

Lemma lower_apply_casing source translated :
  latin_lower (_apply_casing (RT := basic_latin) source translated)
  = latin_lower translated.
Proof.
  unfold _apply_casing. simpl. repeat case_match; try done.
  - apply latin_lower_upper.
  - apply latin_lower_capitalize.
Qed.

Lemma lower_translated_token mapping token :
  latin_lower (translated_token (RT := basic_latin) mapping (latin_lower token))
  = latin_lower (translated_token (RT := basic_latin) mapping token).
Proof.
  unfold translated_token. rewrite word_like_lower.
  destruct (word_like token).
  - by rewrite !lower_apply_casing, chosen_lower.
  - apply latin_lower_idem.
Qed.

(** The lowercased translation depends on the lowercased text only. *)
Lemma lower_translation text mapping :
  latin_lower (concat (map (translated_token (RT := basic_latin) mapping)
                           (_TOKEN_RE_findall text)))
  = latin_lower (concat (map (translated_token (RT := basic_latin) mapping)
                             (_TOKEN_RE_findall (latin_lower text)))).
Proof.
  rewrite !latin_lower_concat, findall_lower. f_equal.
  rewrite !map_map. apply map_ext. intros token.
  by rewrite lower_translated_token.
Qed.

(** * The substring test of the tests: [needle in haystack] *)

Definition str_in (needle haystack : str) : bool :=
  existsb (λ i, bool_decide (take (length needle) (drop i haystack) = needle))
          (seq 0 (S (length haystack))).

Definition res_contains (needle : str) (result : res str) : bool :=
  match result with
  | Ok out => str_in needle out
  | Raise _ => false
  end.

(** * The casing rule, in the words of the specification *)

Section casing_rules.
Context {RT : PyRuntime}.

(** The rule as claimed: uppercase when every letter of the source is
    uppercase, capitalize when only the first character is uppercase. *)
Definition claimed_casing (source translated : str) : str :=
  match source with
  | [] => translated
  | first :: later =>
      if forallb (λ c, negb (is_lower_az c)) source then str_upper translated
      else if is_upper_AZ first && forallb (λ c, negb (is_upper_AZ c)) later
      then str_capitalize translated
      else translated
  end.

(** The rule of the code on Basic Latin: uppercase when the source has a
    letter and none is lowercase; else capitalize when the first character
    is uppercase, whatever follows it. *)
Definition casing_rule (source translated : str) : str :=
  match source with
  | [] => translated
  | first :: _ =>
      if forallb (λ c, negb (is_lower_az c)) source && existsb is_upper_AZ source
      then str_upper translated
      else if is_upper_AZ first then str_capitalize translated
      else translated
  end.
End casing_rules.

Lemma upper_not_lower c : is_upper_AZ c = true → is_lower_az c = false.
Proof.
  unfold is_upper_AZ, is_lower_az, in_range.
  rewrite andb_true_iff, andb_false_iff, !N.leb_le, !N.leb_gt. lia.
Qed.

Lemma latin_isupper_single c : latin_isupper [c] = is_upper_AZ c.
Proof.
  unfold latin_isupper. simpl. rewrite andb_true_r, orb_false_r.
  destruct (is_upper_AZ c) eqn:Hc; [|by rewrite andb_false_r].
  by rewrite upper_not_lower.
Qed.

(** * Facts about the synthesizer *)

(** [n] is [x] cut toward zero. *)
Definition truncated (x : R) (n : Z) : Prop :=
  ((0 <= x → IZR n <= x < IZR n + 1) ∧ (x <= 0 → IZR n - 1 < x <= IZR n))%R.


Lemma R_to_int_truncated x : truncated x (R_to_int x).
Proof.
  unfold truncated, R_to_int. destruct (Rle_dec 0 x) as [Hx|Hx].
  - destruct (base_Int_part x) as [H1 H2]. split; intros H.
    + lra.
    + assert (x = 0%R) as -> by lra.
      assert (Int_part 0 = 0%Z) as -> by apply (Int_part_INR 0). lra.
  - destruct (base_Int_part (- x)) as [H1 H2]. rewrite opp_IZR.
    split; intros H; lra.
Qed.

Lemma R_to_int_IZR n : R_to_int (IZR n) = n.
Proof.
  destruct (R_to_int_truncated (IZR n)) as [H1 H2].
  destruct (Rle_dec 0 (IZR n)) as [H|H].
  - destruct (H1 H) as [Ha Hb]. apply le_IZR in Ha.
    rewrite <- plus_IZR in Hb. apply lt_IZR in Hb. lia.
  - assert (IZR n <= 0)%R as H' by lra. destruct (H2 H') as [Ha Hb].
    apply le_IZR in Hb. rewrite <- minus_IZR in Ha. apply lt_IZR in Ha. lia.
Qed.




Definition in16 (sample : Z) : Prop := (-32768 ≤ sample ≤ 32767)%Z.

Definition encode (samples : list Z) : list byte :=
  concat (map (le_bytes 2) samples).


Lemma pack_h_Ok sample packed :
  pack_h sample = Ok packed → in16 sample ∧ packed = le_bytes 2 sample.
Proof.
  unfold pack_h, in16.
  destruct (Z.leb_spec (-32768) sample); [|done].
  destruct (Z.leb_spec sample 32767); [|done]. intros [= <-]. auto.
Qed.


Lemma length_encode samples : length (encode samples) = (2 * length samples)%nat.
Proof.
  unfold encode. induction samples as [|s l IH]; [done|].
  simpl. rewrite IH. lia.
Qed.



Section synthesizer_facts.
Context {RT : PyRuntime}.

(** The samples of one character, by its frequency. *)
Definition char_samples (self : LibranSynthesizer) (samples : nat) (frequency : Q)
  : list Z :=
  if Qeq_bool frequency 0 then replicate samples 0%Z
  else map (tone_sample self frequency) (seq 0 samples).

Lemma length_char_samples self samples frequency :
  length (char_samples self samples frequency) = samples.
Proof.
  unfold char_samples. destruct (Qeq_bool frequency 0).
  - apply length_replicate.
  - by rewrite length_map, length_seq.
Qed.

Lemma char_samples_silence self samples frequency :
  Qeq_bool frequency 0 = true →
  char_samples self samples frequency = replicate samples 0%Z.
Proof. intros H. unfold char_samples. by rewrite H. Qed.

Lemma char_samples_tone self samples frequency :
  Qeq_bool frequency 0 = false →
  char_samples self samples frequency
  = map (tone_sample self frequency) (seq 0 samples).
Proof. intros H. unfold char_samples. by rewrite H. Qed.

Lemma encode_app l1 l2 : encode (l1 ++ l2) = encode l1 ++ encode l2.
Proof. unfold encode. by rewrite map_app, concat_app. Qed.

Lemma silence_encode samples :
  concat (replicate samples [x00; x00]) = encode (replicate samples 0%Z).
Proof. induction samples as [|n IH]; [done|]. simpl. by rewrite IH. Qed.

Lemma tone_frames_Ok self frequency indices frames out :
  tone_frames self frequency indices frames = Ok out →
  out = frames ++ encode (map (tone_sample self frequency) indices)
  ∧ Forall in16 (map (tone_sample self frequency) indices).
Proof.
  revert frames. induction indices as [|index rest IH]; intros frames; simpl.
  - intros [= <-]. split; [|constructor]. unfold encode. simpl.
    by rewrite app_nil_r.
  - destruct (Z.eqb_spec (sample_rate self) 0) as [|Hrate]; [done|].
    destruct (pack_h (tone_sample self frequency index)) as [packed|] eqn:Hp;
      [|done]. simpl.
    apply pack_h_Ok in Hp as [Hin ->]. intros Hrest.
    destruct (IH _ Hrest) as [-> Hall].
    split; [|by constructor]. by rewrite <- app_assoc.
Qed.


(** The frequencies of the characters of a text, when each is defined. *)
Definition frequencies (text : str) (fs : list Q) : Prop :=
  Forall2 (λ c f, _char_frequency [c] = Ok f) text fs.

Lemma frames_loop_Ok self samples text frames out :
  frames_loop self samples text frames = Ok out →
  ∃ fs, frequencies text fs
        ∧ out = frames ++ encode (concat (map (char_samples self samples) fs))
        ∧ Forall in16 (concat (map (char_samples self samples) fs)).
Proof.
  revert frames. induction text as [|c rest IH]; intros frames; simpl.
  - intros [= <-]. exists []. split; [constructor|]. split; [|constructor].
    unfold encode. simpl. by rewrite app_nil_r.
  - destruct (_char_frequency [c]) as [f|] eqn:Hf; [|done]. simpl.
    destruct (Qeq_bool f 0) eqn:Hz.
    + intros Hrest. destruct (IH _ Hrest) as (fs & Hfs & -> & Hall).
      exists (f :: fs). split; [by constructor|]. simpl.
      rewrite (char_samples_silence _ _ f Hz). split.
      * by rewrite <- app_assoc, encode_app, silence_encode.
      * apply Forall_app. split; [|done]. apply Forall_replicate. by compute.
    + destruct (tone_frames self f (seq 0 samples) frames) as [frames'|] eqn:Ht;
        [|done]. simpl. intros Hrest.
      destruct (IH _ Hrest) as (fs & Hfs & -> & Hall).
      exists (f :: fs). split; [by constructor|]. simpl.
      rewrite (char_samples_tone _ _ f Hz).
      destruct (tone_frames_Ok _ _ _ _ _ Ht) as [-> Htone].
      split; [by rewrite <- app_assoc, encode_app|by apply Forall_app].
Qed.



End synthesizer_facts.

(** ** The container *)

Lemma length_le_bytes width v : length (le_bytes width v) = width.
Proof. unfold le_bytes. by rewrite length_map, length_seq. Qed.

Lemma pack_unsigned_Ok width v packed :
  pack_unsigned width v = Ok packed → length packed = width.
Proof.
  unfold pack_unsigned. case_match; [|done]. intros [= <-].
  apply length_le_bytes.
Qed.


Lemma wave_header_Ok nchannels sampwidth framerate datalength header :
  wave_header nchannels sampwidth framerate datalength = Ok header →
  take 4 header = bytes_of "RIFF" ∧ length header = 44.
Proof.
  unfold wave_header.
  repeat match goal with
  | |- context [pack_unsigned ?w ?v] =>
      let H := fresh "Hp" in
      destruct (pack_unsigned w v) eqn:H; [apply pack_unsigned_Ok in H|done];
      cbn [res_bind]
  end.
  intros [= <-]. split; [done|].
  repeat (rewrite ?length_app; cbn [length]). lia.
Qed.


(** [int] of a rational that is not negative is its floor. *)
Lemma Q_to_int_floor x : (0 <= x)%Q → Q_to_int x = Qfloor x.
Proof.
  destruct x as [n d]. unfold Qle, Q_to_int, Qfloor. simpl. intros H.
  apply Z.quot_div_nonneg; lia.
Qed.

(** ** Every Basic Latin character has a frequency *)

Section basic_frequency.
Context {RT : PyRuntime}.



End basic_frequency.

(** ** Two synthesizers evaluated by hand *)

Lemma R_to_int_unit x : (0 <= x < 1)%R → R_to_int x = 0%Z.
Proof.
  intros [H0 H1]. destruct (R_to_int_truncated x) as [Ht _].
  destruct (Ht H0) as [Ha Hb].
  assert (IZR (R_to_int x) < IZR 1)%R as Hlt by (simpl; lra).
  assert (IZR (-1) < IZR (R_to_int x))%R as Hgt by (simpl; lra).
  apply lt_IZR in Hlt, Hgt. lia.
Qed.

Lemma inv_sqrt2_bounds : (1 / 2 < 1 / sqrt 2 < 1)%R.
Proof.
  pose proof Rlt_sqrt2_0 as Hpos.
  pose proof (sqrt_def 2 ltac:(lra)) as Hsq.
  assert (1 < sqrt 2)%R as H1 by nra.
  assert (sqrt 2 < 2)%R as H2 by nra.
  split.
  - apply Rmult_lt_reg_r with (r := (2 * sqrt 2)%R); [lra|]. field_simplify; lra.
  - apply Rmult_lt_reg_r with (r := sqrt 2); [lra|]. field_simplify; lra.
Qed.

(** One unit of amplitude at 3520 Hz: the second sample of ["a"] (440 Hz)
    is taken at the angle [PI / 4]. *)
Definition quiet_synthesizer : LibranSynthesizer :=
  {| sample_rate := 3520; symbol_duration := 6 # 10000; amplitude := 1 |}.


Lemma quiet_angle :
  (2 * PI * Q2R (440 # 1) * INR 1 / IZR 3520 = PI / 4)%R.
Proof. unfold Q2R. simpl. field. Qed.


Lemma tone_sample_start self frequency : tone_sample self frequency 0 = 0%Z.
Proof.
  unfold tone_sample. simpl INR.
  replace (2 * PI * Q2R frequency * 0 / IZR (sample_rate self))%R with 0%R
    by (unfold Rdiv; ring).
  rewrite sin_0, Rmult_0_r. apply (R_to_int_IZR 0).
Qed.

Lemma quiet_sample_1 : tone_sample quiet_synthesizer (440 # 1) 1 = 0%Z.
Proof.
  unfold tone_sample. cbn [sample_rate amplitude quiet_synthesizer].
  rewrite quiet_angle, sin_PI4. apply R_to_int_unit.
  pose proof inv_sqrt2_bounds. lra.
Qed.


Lemma char_frequency_a :
  _char_frequency (RT := basic_latin) (py "a") = Ok (440 # 1).
Proof. vm_compute. reflexivity. Qed.

Lemma quiet_frames :
  _frames_for_text (RT := basic_latin) quiet_synthesizer (py "a")
  = Ok [x00; x00; x00; x00].
Proof.
  unfold _frames_for_text.
  change (Z.to_nat (samples_per_symbol quiet_synthesizer)) with 2%nat.
  change (py "a") with [97%N]. cbn [frames_loop].
  change [97%N] with (py "a"). rewrite char_frequency_a. cbn [res_bind].
  change (Qeq_bool (440 # 1) 0) with false. cbn [seq tone_frames].
  change (sample_rate quiet_synthesizer =? 0)%Z with false. cbv iota.
  rewrite tone_sample_start, quiet_sample_1. reflexivity.
Qed.


(** * tools/ml/tokenizer/libran_tokenizer.py: [analyze_libran_patterns]

    The dictionaries are what [load_dictionaries] returned: JSON objects,
    taken as their items in order, whose values are strings or something
    else.  A [Counter] is a map to counts, an absent key counting 0. *)

Inductive json_value : Type :=
| JString (s : str)
| JOther.

(** [separator.join(values)]: refused when a value is not a string. *)
Fixpoint str_join (separator : str) (values : list json_value) : res str :=
  match values with
  | [] => Ok []
  | JOther :: _ => Raise TypeError
  | JString s :: rest =>
      let* joined := str_join separator rest in
      Ok (match rest with
          | [] => s
          | _ => s ++ separator ++ joined
          end)
  end.

(** [counter[key] += 1]. *)
Definition count `{Countable K} (key : K) (counter : gmap K nat) : gmap K nat :=
  <[key := S (default 0 (counter !! key))]> counter.

Definition startswith (word : str) (prefixes : list str) : bool :=
  existsb (λ p, bool_decide (take (length p) word = p)) prefixes.

Definition endswith (word : str) (suffixes : list str) : bool :=
  existsb (λ s, bool_decide (drop (length word - length s) word = s)) suffixes.

Record pattern_analysis : Type := {
  character_frequency : gmap N nat;
  word_length_distribution : gmap nat nat;
  prefixes : gmap (list N) nat;
  suffixes : gmap (list N) nat;
  ancient_vs_modern_differences : gmap (list N) (list N)
}.

Definition count_length (counter : gmap nat nat) (libran_word : json_value)
  : gmap nat nat :=
  match libran_word with
  | JString word => count (length word) counter
  | JOther => counter
  end.

Definition count_affixes (counters : gmap (list N) nat * gmap (list N) nat)
    (libran_word : json_value) : gmap (list N) nat * gmap (list N) nat :=
  match libran_word with
  | JString word =>
      if 2 <? length word then
        (if startswith word [py "un"; py "re"; py "pre"; py "dis"]
         then count (take 2 word) counters.1 else counters.1,
         if endswith word [py "ing"; py "ed"; py "ly"; py "er"; py "est"]
         then count (drop (length word - 2) word) counters.2 else counters.2)
      else counters
  | JOther => counters
  end.

Definition analyze_libran_patterns `{RT : PyRuntime}
    (ancient_dict modern_dict : list (str * json_value)) : res pattern_analysis :=
  let ancient_values := map snd ancient_dict in
  let modern_values := map snd modern_dict in
  let* ancient_text := str_join [space] ancient_values in
  let* modern_text := str_join [space] modern_values in
  let all_text := ancient_text ++ modern_text in
  let characters := foldl (λ counter char, count char counter) ∅
                          (str_lower all_text) in
  let words := ancient_values ++ modern_values in
  let lengths := foldl count_length ∅ words in
  let affixes := foldl count_affixes (∅, ∅) words in
  Ok {| character_frequency := characters;
        word_length_distribution := lengths;
        prefixes := affixes.1;
        suffixes := affixes.2;
        ancient_vs_modern_differences := ∅ |}.

(** * Theorems *)

(** C1. Losslessness of the tokenizer: for every input string, the tokens
    found by [_TOKEN_RE], concatenated in order, give the input back. *)
Theorem tokenizer_lossless (text : str) :
  concat (_TOKEN_RE_findall text) = text.
Proof. apply _TOKEN_RE_findall_concat. Qed.

(** C2, as claimed, fails: the source ["McDonald"] has an uppercase first
    character and a later uppercase one; the code capitalizes the candidate
    where the claimed rule returns it unchanged. *)
Lemma apply_casing_mixed_case :
  _apply_casing (RT := basic_latin) (py "McDonald") (py "abc") = py "Abc"
  ∧ claimed_casing (RT := basic_latin) (py "McDonald") (py "abc") = py "abc".
Proof. split; reflexivity. Qed.

(** C2, amended. On a Basic Latin source token, [_apply_casing] returns the
    candidate unchanged when the source is empty; uppercases it when the
    source has at least one letter and no lowercase letter; else capitalizes
    it when the first character of the source is uppercase, whatever the
    later characters are; and otherwise returns it unchanged. *)
Theorem apply_casing_rule `{RT : PyRuntime} (source translated : str) :
  basic source →
  _apply_casing source translated = casing_rule source translated.
Proof.
  intros Hs. unfold _apply_casing, casing_rule.
  destruct source as [|first later]; [done|]. cbv [nonempty].
  rewrite isupper_basic by done.
  rewrite (isupper_basic (take 1 (first :: later))).
  - simpl take. rewrite take_0, latin_isupper_single. done.
  - simpl. rewrite take_0. apply Forall_inv in Hs. by constructor.
Qed.

Lemma apply_casing_rule_witness :
  basic (py "McDonald")
  ∧ _apply_casing (RT := basic_latin) (py "McDonald") (py "abc")
    = casing_rule (RT := basic_latin) (py "McDonald") (py "abc").
Proof.
  assert (basic (py "McDonald")) as H by (by apply basicb_basic).
  split; [exact H|]. exact (apply_casing_rule (py "McDonald") (py "abc") H).
Defined.

(** C3, as claimed, fails: with the empty word the generator returns the
    empty string before it looks at the syllable table, so an empty table
    raises nothing. *)
Lemma procedural_word_empty_word_empty_table :
  _procedural_word [] [] = Ok [].
Proof. reflexivity. Qed.

(** C3, amended. For every non-empty word the generator called with an
    empty syllable table raises [ValueError]; for every syllable table,
    empty or not, the empty word yields the empty string and no error. *)
Theorem procedural_word_errors (word : str) (syllables : list str) :
  (word ≠ [] → _procedural_word word [] = Raise ValueError)
  ∧ _procedural_word [] syllables = Ok [].
Proof.
  split; [|done]. intros Hw. by destruct word.
Qed.

Lemma procedural_word_errors_witness :
  _procedural_word (py "a") [] = Raise ValueError
  ∧ _procedural_word [] _SYLLABLES = Ok [].
Proof.
  destruct (procedural_word_errors (py "a") _SYLLABLES) as [H1 H2].
  split; [|exact H2]. apply H1. discriminate.
Defined.




(** C5. For every non-empty word and non-empty syllable table, the
    generator returns the concatenation, over the positions [i] of the
    word, of [syllable_table[(code_point + i) mod len(syllable_table)]],
    followed by the suffix of the last character exactly when that
    character is one of [a], [e], [i], [o], [u]. *)
Theorem procedural_word_generate (word : str) (syllable_table : list str) :
  word ≠ [] → syllable_table ≠ [] →
  _procedural_word word syllable_table = Ok (generate word syllable_table).
Proof. apply _procedural_word_generate. Qed.

Lemma procedural_word_generate_witness :
  _procedural_word (py "mystery") _SYLLABLES = Ok (py "rabamielmielven")
  ∧ _procedural_word (py "idea") _SYLLABLES = Ok (py "misevenkara").
Proof.
  split.
  - rewrite (procedural_word_generate (py "mystery") _SYLLABLES);
      [reflexivity|discriminate|discriminate].
  - rewrite (procedural_word_generate (py "idea") _SYLLABLES);
      [reflexivity|discriminate|discriminate].
Defined.

(** C6. [normalize_text] is total; its result holds only characters of
    [[a-z0-9' ]], has no two consecutive spaces and no space at either end;
    it is empty when the input is empty or white space only; and
    [normalize_text("Hello, World!!")] is ["hello world"]. *)
Theorem normalize_text_guarantee `{RT : PyRuntime} (text : str) :
  Forall (λ c, normal_class c = true) (normalize_text text)
  ∧ (∀ i, ¬ (normalize_text text !! i = Some space
             ∧ normalize_text text !! S i = Some space))
  ∧ head (normalize_text text) ≠ Some space
  ∧ last (normalize_text text) ≠ Some space
  ∧ normalize_text [] = []
  ∧ (Forall (λ c, chr_isspace c = true) text → normalize_text text = [])
  ∧ normalize_text (py "Hello, World!!") = py "hello world".
Proof.
  split; [apply normalize_text_chars|].
  split.
  { intros i [H1 H2].
    destruct (separated_lookup _ _ _ _ _ (normalize_text_separated text) H1 H2)
      as [H|H]; rewrite isspace_space in H; done. }
  split.
  { pose proof (strip_head (re_sub_plus chr_isspace [space]
      (re_sub_plus cleaned_class [space] (str_lower text)))) as H.
    unfold normalize_text. intros Hh.
    destruct (str_strip _) as [|c r]; simplify_eq/=.
    by rewrite isspace_space in H. }
  split.
  { unfold normalize_text, str_strip. intros Hl.
    apply rstrip_last in Hl. by rewrite isspace_space in Hl. }
  split; [by apply normalize_text_space|].
  split; [apply normalize_text_space|].
  rewrite normalize_text_basic; [by vm_compute|]. by apply basicb_basic.
Qed.

Lemma normalize_text_guarantee_witness :
  Forall (λ c, latin_isspace c = true) [9; 32; 10]%N
  ∧ normalize_text (RT := basic_latin) [9; 32; 10]%N = [].
Proof.
  assert (Forall (λ c, latin_isspace c = true) [9; 32; 10]%N) as Hs
    by (repeat constructor).
  split; [exact Hs|].
  exact (proj1 (proj2 (proj2 (proj2 (proj2 (proj2
    (normalize_text_guarantee (RT := basic_latin) [9; 32; 10]%N)))))) Hs).
Defined.

(** C7. The effective dictionary is the default dictionary overlaid by the
    caller's items under their lowercased keys: a key some caller item
    lowercases to has the value of the last such item, every other key has
    its default value.  [english_to_libran("Friend")] contains ["Kaleth"];
    with the override [{"friend": "allya"}] it contains ["Allya"]. *)
Theorem dictionary_precedence `{RT : PyRuntime}
    (dictionary : option (list (str * str))) (key : str) :
  effective_mapping dictionary !! key = overlay dictionary key
  ∧ english_to_libran (py "Friend") None = Ok (py "Kaleth")
  ∧ res_contains (py "Kaleth") (english_to_libran (py "Friend") None) = true
  ∧ english_to_libran (py "Friend") (Some [(py "friend", py "allya")])
    = Ok (py "Allya")
  ∧ res_contains (py "Allya")
      (english_to_libran (py "Friend") (Some [(py "friend", py "allya")])) = true.
Proof.
  split; [apply effective_mapping_lookup|].
  assert (basic (py "Friend")) as Hf by by apply basicb_basic.
  assert (basic_items (Some [(py "friend", py "allya")])) as Hd.
  { constructor; [|constructor]. split; by apply basicb_basic. }
  rewrite (english_to_libran_basic (py "Friend") None Hf I).
  rewrite (english_to_libran_basic (py "Friend") _ Hf Hd).
  split; [vm_compute; reflexivity|].
  split; [vm_compute; reflexivity|].
  split; vm_compute; reflexivity.
Qed.




(** C9. The translation is a function of its arguments, so repeated calls
    agree; and on Basic Latin text two case-only variants (texts with the
    same lowercase form) have the same lowercased translation, as
    ["mystery"] and ["Mystery"] do. *)
Theorem translation_case_insensitive `{RT : PyRuntime} (w1 w2 : str)
    (dictionary : option (list (str * str))) :
  basic w1 → basic w2 → basic_items dictionary →
  str_lower w1 = str_lower w2 →
  (∀ r1 r2, english_to_libran w1 dictionary = r1 →
            english_to_libran w1 dictionary = r2 → r1 = r2)
  ∧ res_map str_lower (english_to_libran w1 dictionary)
    = res_map str_lower (english_to_libran w2 dictionary)
  ∧ res_map str_lower (english_to_libran (py "mystery") None)
    = res_map str_lower (english_to_libran (py "Mystery") None).
Proof.
  intros H1 H2 Hd Hlow.
  split; [by intros r1 r2 <- <-|].
  assert (∀ a b, basic a → basic b → str_lower a = str_lower b →
            res_map str_lower (english_to_libran a dictionary)
            = res_map str_lower (english_to_libran b dictionary)) as Hgen.
  { intros a b Ha Hb Hab.
    rewrite (lower_basic a), (lower_basic b) in Hab by done.
    rewrite (english_to_libran_basic a), (english_to_libran_basic b) by done.
    pose proof (basic_english_to_libran a dictionary _ Ha Hd
                  (english_to_libran_ok a dictionary)) as Hoa.
    pose proof (basic_english_to_libran b dictionary _ Hb Hd
                  (english_to_libran_ok b dictionary)) as Hob.
    rewrite !english_to_libran_ok. unfold res_map. cbn [res_bind].
    rewrite !lower_basic by done. f_equal.
    rewrite (lower_translation a), (lower_translation b). by rewrite Hab. }
  split; [by apply Hgen|].
  assert (basic (py "mystery")) as Hm1 by by apply basicb_basic.
  assert (basic (py "Mystery")) as Hm2 by by apply basicb_basic.
  rewrite (english_to_libran_basic (py "mystery") None Hm1 I).
  rewrite (english_to_libran_basic (py "Mystery") None Hm2 I).
  unfold res_map.
  change (res_bind (english_to_libran (RT := basic_latin) (py "mystery") None)
                   (λ a, Ok (str_lower a)))
    with (Ok (A := list N) (str_lower (py "rabamielmielven"))).
  change (res_bind (english_to_libran (RT := basic_latin) (py "Mystery") None)
                   (λ a, Ok (str_lower a)))
    with (Ok (A := list N) (str_lower (py "Rabamielmielven"))).
  rewrite !lower_basic by by apply basicb_basic. done.
Qed.

Lemma translation_case_insensitive_witness :
  res_map latin_lower
    (english_to_libran (RT := basic_latin) (py "It's a Star!") None)
  = res_map latin_lower
      (english_to_libran (RT := basic_latin) (py "IT'S A star!") None).
Proof.
  refine (proj1 (proj2 (translation_case_insensitive (RT := basic_latin)
    (py "It's a Star!") (py "IT'S A star!") None _ _ _ _)));
    first [by apply basicb_basic | done].
Defined.

(** C10. An empty dictionary value counts as no entry: a word-like token
    whose lowercase form and whose normalized form both map to the empty
    string in the effective dictionary is translated by the procedural
    generator, and so is a text made of that one token. *)
Theorem empty_entry_is_absent `{RT : PyRuntime}
    (dictionary : option (list (str * str))) (token : str) :
  word_like token = true →
  effective_mapping dictionary !! str_lower token = Some [] →
  effective_mapping dictionary !! normalize_text token = Some [] →
  translate_token (effective_mapping dictionary) token
  = res_map (_apply_casing token)
            (_procedural_word (normalize_text token) _SYLLABLES)
  ∧ (_TOKEN_RE_findall token = [token] →
     english_to_libran token dictionary
     = res_map (_apply_casing token)
               (_procedural_word (normalize_text token) _SYLLABLES)).
Proof.
  intros Hw H1 H2.
  assert (translate_token (effective_mapping dictionary) token
          = res_map (_apply_casing token)
              (_procedural_word (normalize_text token) _SYLLABLES)) as Ht.
  { unfold translate_token. rewrite Hw, H1. simpl. rewrite H2. simpl.
    unfold res_map. by destruct (_procedural_word _ _). }
  split; [exact Ht|].
  intros Hf. unfold english_to_libran. rewrite Hf. simpl. rewrite Ht.
  unfold res_map. destruct (_procedural_word _ _); simpl; [|done].
  by rewrite app_nil_r.
Qed.

Lemma empty_entry_is_absent_witness :
  english_to_libran (RT := basic_latin) (py "Hello") (Some [(py "hello", [])])
  = Ok (py "Zortubanovenno").
Proof.
  rewrite (proj2 (empty_entry_is_absent (RT := basic_latin)
    (Some [(py "hello", [])]) (py "Hello") eq_refl eq_refl eq_refl) eq_refl).
  reflexivity.
Defined.

(** * Further properties *)

(** ** The tokenizer *)

(** Every token is either a non-empty run of [[A-Za-z0-9']] or one
    character outside the class. *)
Inductive token_shape : str → Prop :=
| shape_run c run :
    token_class c = true → Forall (λ x, token_class x = true) run →
    token_shape (c :: run)
| shape_single c : token_class c = false → token_shape [c].

(** The first token starts where the text starts. *)
Lemma findall_head text :
  head (_TOKEN_RE_findall text) ≫= head = head text.
Proof. funelim (_TOKEN_RE_findall text); done. Qed.

(** After a run comes a character outside the class: runs are maximal. *)
Fixpoint runs_maximal (tokens : list str) : Prop :=
  match tokens with
  | [] => True
  | t :: rest =>
      match head t, head rest ≫= head with
      | Some c, Some c' => token_class c = true → token_class c' = false
      | _, _ => True
      end ∧ runs_maximal rest
  end.

Lemma findall_runs_maximal text : runs_maximal (_TOKEN_RE_findall text).
Proof.
  funelim (_TOKEN_RE_findall text).
  - done.
  - split; [|done]. simpl. rewrite findall_head.
    pose proof (span_class_stop token_class rest) as Hstop.
    destruct (span_class token_class rest).2; simpl; done.
  - split; [|done]. simpl. rewrite findall_head.
    destruct rest; simpl; [done|]. congruence.
Qed.

Lemma findall_shapes text : Forall token_shape (_TOKEN_RE_findall text).
Proof.
  funelim (_TOKEN_RE_findall text).
  - constructor.
  - constructor; [|done]. apply shape_run; [done|apply span_class_run].
  - constructor; [|done]. by apply shape_single.
Qed.

(** The tokens of a text are non-empty runs of the class and single
    characters outside it, and no run is followed by a token that starts
    inside the class: every run is as long as it can be. *)
Theorem findall_token_shapes (text : str) :
  Forall token_shape (_TOKEN_RE_findall text)
  ∧ runs_maximal (_TOKEN_RE_findall text).
Proof. split; [apply findall_shapes|apply findall_runs_maximal]. Qed.

(** ** Translation, token by token *)

Lemma span_class_app_stop p s c b :
  p c = false →
  span_class p (s ++ c :: b) = ((span_class p s).1, (span_class p s).2 ++ c :: b).
Proof.
  intros Hc. induction s as [|x r IH]; simpl.
  - by rewrite Hc.
  - destruct (p x); [|done]. rewrite IH. by destruct (span_class p r).
Qed.

Lemma findall_app_separator a sep b :
  token_class sep = false →
  _TOKEN_RE_findall (a ++ sep :: b)
  = _TOKEN_RE_findall a ++ [sep] :: _TOKEN_RE_findall b.
Proof.
  intros Hsep. funelim (_TOKEN_RE_findall a).
  - simpl. simp _TOKEN_RE_findall. by rewrite Hsep.
  - change ((c :: rest) ++ sep :: b) with (c :: rest ++ sep :: b).
    simp _TOKEN_RE_findall. rewrite Heq. simpl.
    rewrite span_class_app_stop by done. simpl. f_equal. by apply H.
  - change ((c :: rest) ++ sep :: b) with (c :: rest ++ sep :: b).
    simp _TOKEN_RE_findall. rewrite Heq. simpl. f_equal. by apply H.
Qed.

(** A Basic Latin character outside the class is no word. *)
Lemma separator_not_word_like `{RT : PyRuntime} c :
  (c < 128)%N → token_class c = false → word_like [c] = false.
Proof.
  intros Hb Hc. rewrite word_like_basic by by constructor.
  unfold word_like. simpl. unfold latin_isalpha, latin_isalnum.
  unfold token_class in Hc.
  apply orb_false_iff in Hc as [[[H1 H2]%orb_false_iff H3]%orb_false_iff H4].
  apply N.eqb_neq in H4. rewrite filter_cons, decide_True by done.
  rewrite filter_nil. simpl. unfold is_alnum, is_alpha.
  by rewrite H1, H2, H3.
Qed.

(** The translation goes token by token: a Basic Latin character outside
    [[A-Za-z0-9']] (a space, a comma, ...) is kept, and the texts on its two
    sides are translated independently of each other. *)
Theorem english_to_libran_separator `{RT : PyRuntime} (a b : str) (c : N)
    (dictionary : option (list (str * str))) :
  (c < 128)%N → token_class c = false →
  english_to_libran (a ++ c :: b) dictionary
  = let* left := english_to_libran a dictionary in
    let* right := english_to_libran b dictionary in
    Ok (left ++ c :: right).
Proof.
  intros Hb Hc. rewrite !english_to_libran_ok. cbn [res_bind].
  rewrite findall_app_separator by done.
  rewrite map_app, concat_app. simpl.
  unfold translated_token at 2. by rewrite separator_not_word_like.
Qed.

Lemma english_to_libran_separator_witness :
  english_to_libran (RT := basic_latin) (py "Hello, world") None
  = Ok (py "Valori" ++ 44%N :: py " zenith").
Proof.
  exact (english_to_libran_separator (RT := basic_latin)
           (py "Hello") (py " world") 44%N None eq_refl eq_refl).
Defined.

(** Text without a letter or a digit passes through. *)
Lemma not_word_like_without_alnum `{RT : PyRuntime} token :
  basic token → Forall (λ c, is_alnum c = false) token →
  word_like token = false.
Proof.
  intros Hb Hn. rewrite word_like_basic by done.
  unfold word_like. simpl. unfold latin_isalpha, latin_isalnum.
  apply orb_false_iff. split.
  - destruct Hn as [|c r Hc Hr]; [done|]. simpl.
    unfold is_alnum in Hc. apply orb_false_iff in Hc as [-> _]. done.
  - assert (Forall (λ c, is_alnum c = false) (filter (λ c, c ≠ apostrophe) token))
      as Hf.
    { clear Hb. induction Hn as [|c r Hc _ IH]; [constructor|].
      rewrite filter_cons. case_decide; [by constructor|done]. }
    destruct Hf as [|c r Hc Hr]; [done|]. simpl. by rewrite Hc.
Qed.

(** A Basic Latin text without letters and digits (punctuation, spaces,
    apostrophes) is its own translation, whatever the dictionary. *)
Theorem english_to_libran_punctuation `{RT : PyRuntime} (text : str)
    (dictionary : option (list (str * str))) :
  basic text → Forall (λ c, is_alnum c = false) text →
  english_to_libran text dictionary = Ok text.
Proof.
  intros Hb Hn. rewrite english_to_libran_ok. f_equal.
  rewrite <- (_TOKEN_RE_findall_concat text) at 2. f_equal.
  rewrite <- (map_id (_TOKEN_RE_findall text)) at 2.
  apply map_ext_Forall.
  rewrite <- (_TOKEN_RE_findall_concat text) in Hb, Hn.
  unfold basic in Hb. rewrite Forall_concat in Hb, Hn.
  rewrite Forall_forall in Hb, Hn. apply Forall_forall. intros token Hin.
  unfold translated_token.
  rewrite not_word_like_without_alnum; [done|by apply Hb|by apply Hn].
Qed.

Lemma english_to_libran_punctuation_witness :
  english_to_libran (RT := basic_latin) (py "'' ... !?") None = Ok (py "'' ... !?").
Proof.
  apply (english_to_libran_punctuation (RT := basic_latin)).
  - by apply basicb_basic.
  - repeat constructor.
Defined.

(** ** The translator *)

(** The translator raises nothing: every text, with every dictionary,
    has a translation, although [_procedural_word] can raise. *)
Theorem english_to_libran_total `{RT : PyRuntime} (text : str)
    (dictionary : option (list (str * str))) :
  ∃ out, english_to_libran text dictionary = Ok out.
Proof. eexists. apply english_to_libran_ok. Qed.

(** ** The normalizer *)

Section normalizer_properties.
Context {RT : PyRuntime}.

Lemma kept_class_basic c : kept_class c = true → (c < 128)%N.
Proof.
  unfold kept_class, is_lower_az, is_digit_09, in_range, apostrophe.
  rewrite !orb_true_iff, !andb_true_iff, !N.leb_le, N.eqb_eq. lia.
Qed.

Lemma kept_class_not_space c : kept_class c = true → chr_isspace c = false.
Proof.
  intros Hk. rewrite isspace_basic by by apply kept_class_basic.
  revert Hk. unfold kept_class, latin_isspace. chr_cases.
Qed.

Lemma kept_class_lower c : kept_class c = true → lower_chr c = c.
Proof. unfold kept_class. chr_cases. Qed.

Lemma normal_class_basic c : normal_class c = true → (c < 128)%N.
Proof.
  unfold normal_class. intros [H|H%N.eqb_eq]%orb_true_iff.
  - by apply kept_class_basic.
  - by subst.
Qed.

Lemma normal_class_lower c : normal_class c = true → lower_chr c = c.
Proof.
  unfold normal_class. intros [H|H%N.eqb_eq]%orb_true_iff.
  - by apply kept_class_lower.
  - by subst.
Qed.

Lemma normal_class_cleaned c : normal_class c = true → cleaned_class c = false.
Proof.
  unfold normal_class, cleaned_class, kept_class.
  intros [H|H%N.eqb_eq]%orb_true_iff.
  - by rewrite H.
  - subst. by rewrite isspace_space, orb_true_r.
Qed.

Lemma normal_class_space c :
  normal_class c = true → chr_isspace c = true → c = space.
Proof.
  unfold normal_class. intros [H|H%N.eqb_eq]%orb_true_iff Hs; [|done].
  by rewrite kept_class_not_space in Hs.
Qed.

Lemma lstrip_id s : head_outside chr_isspace s → str_lstrip s = s.
Proof.
  unfold str_lstrip. destruct s as [|c r]; [done|]. simpl. by intros ->.
Qed.

Lemma rstrip_id s :
  head_outside chr_isspace (reverse s) → str_rstrip s = s.
Proof.
  intros H. unfold str_rstrip. rewrite lstrip_id by done.
  apply reverse_involutive.
Qed.

(** Collapsing changes nothing where the only white space is single
    spaces. *)
Lemma collapse_id b s :
  Forall (λ c, normal_class c = true) s → separated chr_isspace s →
  (b = true → head_outside chr_isspace s) →
  sub_scan chr_isspace [space] b s = s.
Proof.
  intros Hall. revert b. induction Hall as [|c r Hc _ IH]; intros b Hsep Hb;
    [done|].
  simpl. destruct Hsep as [Hnext Hsep]. destruct (chr_isspace c) eqn:Hs.
  - destruct b; [by rewrite (Hb eq_refl) in Hs|].
    rewrite (normal_class_space c Hc Hs). simpl. f_equal.
    apply IH; [done|]. intros _. destruct r as [|c' r']; [done|].
    simpl. destruct Hnext as [H|H]; congruence.
  - f_equal. apply IH; [done|]. done.
Qed.

(** A string of [[a-z0-9' ]] with single inner spaces is normalized. *)
Lemma normalize_text_fixed s :
  Forall (λ c, normal_class c = true) s → separated chr_isspace s →
  head_outside chr_isspace s → head_outside chr_isspace (reverse s) →
  normalize_text s = s.
Proof.
  intros Hall Hsep Hh Hl. unfold normalize_text.
  assert (basic s) as Hb.
  { eapply Forall_impl; [exact Hall|]. apply normal_class_basic. }
  rewrite lower_basic by done.
  assert (latin_lower s = s) as ->.
  { unfold latin_lower. rewrite <- (map_id s) at 2. apply map_ext_Forall.
    eapply Forall_impl; [exact Hall|]. apply normal_class_lower. }
  rewrite (re_sub_plus_scan cleaned_class), sub_scan_id.
  - rewrite re_sub_plus_scan, collapse_id by done.
    unfold str_strip. rewrite lstrip_id by done. by apply rstrip_id.
  - eapply Forall_impl; [exact Hall|]. apply normal_class_cleaned.
Qed.

Lemma normalize_text_head text : head_outside chr_isspace (normalize_text text).
Proof. apply strip_head. Qed.

Lemma normalize_text_last text :
  head_outside chr_isspace (reverse (normalize_text text)).
Proof.
  unfold normalize_text, str_strip, str_rstrip. rewrite reverse_involutive.
  apply lstrip_head.
Qed.
End normalizer_properties.

(** [normalize_text] is idempotent: normalizing a normalized text changes
    nothing. *)
Theorem normalize_text_idempotent `{RT : PyRuntime} (text : str) :
  normalize_text (normalize_text text) = normalize_text text.
Proof.
  apply normalize_text_fixed.
  - apply normalize_text_chars.
  - apply normalize_text_separated.
  - apply normalize_text_head.
  - apply normalize_text_last.
Qed.

(** For a run of [[A-Za-z0-9']], the only word-like tokens of Basic Latin
    text, the normalized form is the lowercase form: the second dictionary
    lookup of the translator asks for the key the first one asked for. *)
Theorem normalize_text_of_run `{RT : PyRuntime} (token : str)
    (mapping : gmap (list N) (list N)) :
  Forall (λ c, token_class c = true) token →
  normalize_text token = str_lower token
  ∧ mapping !! normalize_text token = mapping !! str_lower token.
Proof.
  intros Hrun.
  assert (normalize_text token = str_lower token) as Heq; [|by rewrite Heq].
  assert (basic token) as Hb.
  { eapply Forall_impl; [exact Hrun|]. intros c. unfold token_class.
    chr_cases. }
  assert (Forall (λ c, kept_class c = true) (latin_lower token)) as Hk.
  { unfold latin_lower. apply Forall_fmap.
    eapply Forall_impl; [exact Hrun|]. intros c. simpl.
    unfold token_class, kept_class. chr_cases. }
  unfold normalize_text. rewrite lower_basic by done.
  rewrite (re_sub_plus_scan cleaned_class), sub_scan_id.
  - rewrite re_sub_plus_scan, sub_scan_id.
    + assert (∀ s, Forall (λ c, chr_isspace c = false) s → str_lstrip s = s)
        as Hl.
      { intros s Hs. apply lstrip_id. by destruct Hs. }
      unfold str_strip, str_rstrip. rewrite (Hl (latin_lower token)).
      * rewrite Hl; [apply reverse_involutive|]. apply Forall_reverse.
        eapply Forall_impl; [exact Hk|]. apply kept_class_not_space.
      * eapply Forall_impl; [exact Hk|]. apply kept_class_not_space.
    + eapply Forall_impl; [exact Hk|]. apply kept_class_not_space.
  - eapply Forall_impl; [exact Hk|]. intros c Hc. unfold cleaned_class.
    fold (kept_class c). by rewrite Hc.
Qed.

Lemma normalize_text_of_run_witness :
  normalize_text (RT := basic_latin) (py "Don't") = py "don't".
Proof.
  refine (proj1 (normalize_text_of_run (RT := basic_latin) (py "Don't") ∅ _)).
  repeat constructor.
Defined.

(** ** Casing *)

Lemma upper_chr_idem c : upper_chr (upper_chr c) = upper_chr c.
Proof. chr_cases. Qed.

Lemma upper_lower_chr c : upper_chr (lower_chr c) = upper_chr c.
Proof. chr_cases. Qed.

Lemma latin_upper_idem s : latin_upper (latin_upper s) = latin_upper s.
Proof. unfold latin_upper. rewrite map_map. apply map_ext, upper_chr_idem. Qed.

Lemma latin_capitalize_idem s :
  latin_capitalize (latin_capitalize s) = latin_capitalize s.
Proof.
  destruct s as [|c r]; [done|]. simpl. rewrite upper_chr_idem. f_equal.
  rewrite map_map. apply map_ext, lower_chr_idem.
Qed.

Lemma apply_casing_reference_facts source translated :
  latin_lower (_apply_casing (RT := basic_latin) source translated)
  = latin_lower translated
  ∧ length (_apply_casing (RT := basic_latin) source translated)
    = length translated
  ∧ _apply_casing (RT := basic_latin) source
      (_apply_casing (RT := basic_latin) source translated)
    = _apply_casing (RT := basic_latin) source translated.
Proof.
  split; [apply lower_apply_casing|].
  unfold _apply_casing. simpl.
  destruct (nonempty source); [|done].
  destruct (latin_isupper source).
  - split; [apply length_map|apply latin_upper_idem].
  - destruct (latin_isupper (take 1 source)); [|done].
    split; [|apply latin_capitalize_idem].
    destruct translated; [done|]. simpl. by rewrite length_map.
Qed.

(** Restoring the casing changes the case of letters and nothing else: on
    Basic Latin strings the result has the lowercase form and the length of
    the candidate, and restoring the casing twice is restoring it once. *)
Theorem apply_casing_only_case `{RT : PyRuntime} (source translated : str) :
  basic source → basic translated →
  str_lower (_apply_casing source translated) = str_lower translated
  ∧ length (_apply_casing source translated) = length translated
  ∧ _apply_casing source (_apply_casing source translated)
    = _apply_casing source translated.
Proof.
  intros Hs Ht.
  pose proof (basic_apply_casing source translated Ht) as Hb.
  destruct (apply_casing_reference_facts source translated) as (H1 & H2 & H3).
  rewrite (apply_casing_basic source translated) by done.
  rewrite (apply_casing_basic source _ Hs Hb).
  by rewrite !lower_basic by done.
Qed.

Lemma apply_casing_only_case_witness :
  latin_lower (_apply_casing (RT := basic_latin) (py "McDonald") (py "kaLETH"))
  = latin_lower (py "kaLETH").
Proof.
  refine (proj1 (apply_casing_only_case (RT := basic_latin)
                   (py "McDonald") (py "kaLETH") _ _)); by apply basicb_basic.
Defined.

(** ** Pseudo-words *)

Definition lowercase (s : str) : Prop := Forall (λ c, is_lower_az c = true) s.

Lemma syllables_lowercase : Forall lowercase _SYLLABLES.
Proof. repeat constructor. Qed.

Lemma syllables_length :
  Forall (λ syllable, 2 ≤ length syllable ≤ 3) _SYLLABLES.
Proof. repeat constructor. Qed.

Lemma syllable_at_default i c :
  lowercase (syllable_at _SYLLABLES i c)
  ∧ 2 ≤ length (syllable_at _SYLLABLES i c) ≤ 3.
Proof.
  pose proof (syllable_lookup _SYLLABLES i c ltac:(done)) as Hl.
  apply list_elem_of_lookup_2 in Hl.
  pose proof syllables_lowercase as H1. pose proof syllables_length as H2.
  rewrite Forall_forall in H1, H2. split; [by apply H1|by apply H2].
Qed.

Lemma vowel_suffix_shape c :
  lowercase (if is_vowel c then vowel_suffix c else [])
  ∧ length (if is_vowel c then vowel_suffix c else []) ≤ 2.
Proof.
  unfold is_vowel, vowel_suffix.
  repeat match goal with
  | |- context [(c =? ?n)%N] =>
      destruct (N.eqb_spec c n) as [->|?];
      [simpl; split; [repeat constructor|simpl; lia]|]
  end.
  simpl. split; [constructor|lia].
Qed.

Lemma imap_syllables_shape (f : nat → N → str) word :
  (∀ i c, lowercase (f i c) ∧ 2 ≤ length (f i c) ≤ 3) →
  lowercase (concat (imap f word))
  ∧ 2 * length word ≤ length (concat (imap f word)) ≤ 3 * length word.
Proof.
  revert f. induction word as [|c w IH]; intros f Hf; simpl.
  - split; [constructor|lia].
  - destruct (Hf 0 c) as [H1 H2].
    destruct (IH (f ∘ S)) as [H3 H4]; [intros i c'; apply Hf|].
    split; [by apply Forall_app|]. rewrite length_app. lia.
Qed.

Lemma generate_default_shape word :
  lowercase (generate word _SYLLABLES)
  ∧ 2 * length word ≤ length (generate word _SYLLABLES) ≤ 3 * length word + 2.
Proof.
  unfold generate.
  destruct (imap_syllables_shape (syllable_at _SYLLABLES) word
              syllable_at_default) as [H1 H2].
  assert (lowercase (match last word with
                     | Some c => if is_vowel c then vowel_suffix c else []
                     | None => []
                     end)
          ∧ length (match last word with
                    | Some c => if is_vowel c then vowel_suffix c else []
                    | None => []
                    end) ≤ 2) as [H3 H4].
  { destruct (last word); [apply vowel_suffix_shape|].
    split; [constructor|simpl; lia]. }
  split; [by apply Forall_app|]. rewrite length_app. lia.
Qed.

(** The pseudo-word of a non-empty word is made of lowercase letters only
    and has between two and three letters for each character of the word,
    and up to two more for the vowel suffix. *)
Theorem procedural_word_shape (word : str) :
  word ≠ [] →
  ∃ out, _procedural_word word _SYLLABLES = Ok out
         ∧ lowercase out
         ∧ 2 * length word ≤ length out ≤ 3 * length word + 2.
Proof.
  intros Hw. exists (generate word _SYLLABLES).
  split; [by apply _procedural_word_generate|apply generate_default_shape].
Qed.

Lemma procedural_word_shape_witness :
  ∃ out, _procedural_word (py "idea") _SYLLABLES = Ok out
         ∧ lowercase out ∧ 8 ≤ length out ≤ 14.
Proof. exact (procedural_word_shape (py "idea") ltac:(discriminate)). Defined.

(** ** Lowercase in, lowercase out *)

Lemma procedural_lowercase word : lowercase (procedural word).
Proof.
  destruct word as [|c w]; [constructor|]. apply generate_default_shape.
Qed.

Lemma DEFAULT_DICTIONARY_lowercase k v :
  DEFAULT_DICTIONARY !! k = Some v → lowercase v.
Proof.
  unfold DEFAULT_DICTIONARY. simpl list_to_map.
  repeat (rewrite lookup_insert; case_decide;
          [intros [= <-]; repeat constructor|]).
  by rewrite lookup_empty.
Qed.

Lemma chosen_default_lowercase `{RT : PyRuntime} token :
  lowercase (chosen DEFAULT_DICTIONARY token).
Proof.
  unfold chosen.
  destruct (DEFAULT_DICTIONARY !! str_lower token) as [[|c v]|] eqn:H1; simpl.
  - destruct (DEFAULT_DICTIONARY !! normalize_text token) as [[|c v]|] eqn:H2;
      simpl; [apply procedural_lowercase| |apply procedural_lowercase].
    by eapply DEFAULT_DICTIONARY_lowercase.
  - by eapply DEFAULT_DICTIONARY_lowercase.
  - destruct (DEFAULT_DICTIONARY !! normalize_text token) as [[|c v]|] eqn:H2;
      simpl; [apply procedural_lowercase| |apply procedural_lowercase].
    by eapply DEFAULT_DICTIONARY_lowercase.
Qed.

Definition no_uppercase (s : str) : Prop := Forall (λ c, is_upper_AZ c = false) s.

Lemma lowercase_no_uppercase s : lowercase s → no_uppercase s.
Proof.
  intros H. eapply Forall_impl; [exact H|]. intros c. chr_cases.
Qed.

Lemma no_uppercase_isupper s : no_uppercase s → latin_isupper s = false.
Proof.
  intros H. unfold latin_isupper. apply andb_false_iff. right.
  induction H as [|c r Hc _ IH]; [done|]. simpl. by rewrite Hc, IH.
Qed.

(** With the default dictionary the translator introduces no capital: the
    translation of a Basic Latin text without uppercase letters has no
    uppercase letter, its words being dictionary entries and pseudo-words
    taken as they are. *)
Theorem english_to_libran_lowercase `{RT : PyRuntime} (text : str) :
  basic text → no_uppercase text →
  ∃ out, english_to_libran text None = Ok out ∧ no_uppercase out.
Proof.
  intros Hb Hn. eexists. split; [apply english_to_libran_ok|].
  rewrite <- (_TOKEN_RE_findall_concat text) in Hb, Hn.
  unfold basic, no_uppercase in *. rewrite Forall_concat in Hb, Hn.
  rewrite Forall_forall in Hb, Hn.
  apply Forall_concat, Forall_fmap, Forall_forall. intros token Hin. simpl.
  unfold translated_token. destruct (word_like token); [|by apply Hn].
  unfold _apply_casing. destruct (nonempty token); [|].
  - rewrite isupper_basic by by apply Hb.
    rewrite no_uppercase_isupper by by apply Hn.
    rewrite isupper_basic by by apply Forall_take, Hb.
    rewrite no_uppercase_isupper by by apply Forall_take, Hn.
    apply lowercase_no_uppercase, chosen_default_lowercase.
  - apply lowercase_no_uppercase, chosen_default_lowercase.
Qed.

Lemma english_to_libran_lowercase_witness :
  ∃ out, english_to_libran (RT := basic_latin) (py "hello, 3 mysteries!") None
         = Ok out ∧ no_uppercase out.
Proof.
  apply (english_to_libran_lowercase (RT := basic_latin)).
  - by apply basicb_basic.
  - repeat constructor.
Defined.

(** ** The container header *)

(** The unsigned little-endian value of a field. *)
Fixpoint le_value (field : list byte) : Z :=
  match field with
  | [] => 0
  | b :: rest => Z.of_N (Byte.to_N b) + 256 * le_value rest
  end.



Lemma pack_unsigned_inv width v packed :
  pack_unsigned width v = Ok packed →
  packed = le_bytes width v ∧ (0 ≤ v < 2 ^ (8 * Z.of_nat width))%Z.
Proof.
  unfold pack_unsigned.
  destruct (Z.leb_spec 0 v); [|done].
  destruct (Z.ltb_spec v (2 ^ (8 * Z.of_nat width))); [|done].
  intros [= <-]. auto.
Qed.

Lemma wave_header_inv framerate datalength header :
  wave_header 1 2 framerate datalength = Ok header →
  header = bytes_of "RIFF" ++ le_bytes 4 (36 + datalength) ++ bytes_of "WAVE"
           ++ bytes_of "fmt " ++ le_bytes 4 16 ++ le_bytes 2 1 ++ le_bytes 2 1
           ++ le_bytes 4 framerate ++ le_bytes 4 (1 * framerate * 2)
           ++ le_bytes 2 (1 * 2) ++ le_bytes 2 (2 * 8) ++ bytes_of "data"
           ++ le_bytes 4 datalength
  ∧ (0 ≤ 36 + datalength < 2 ^ 32)%Z
  ∧ (0 ≤ framerate < 2 ^ 32)%Z
  ∧ (0 ≤ 1 * framerate * 2 < 2 ^ 32)%Z
  ∧ (0 ≤ datalength < 2 ^ 32)%Z.
Proof.
  unfold wave_header.
  repeat match goal with
  | |- context [pack_unsigned ?w ?v] =>
      let H := fresh "Hp" in
      destruct (pack_unsigned w v) eqn:H; [apply pack_unsigned_inv in H|done];
      cbn [res_bind]
  end.
  intros [= <-].
  repeat match goal with H : _ = le_bytes _ _ ∧ _ |- _ => destruct H as [-> ?] end.
  auto 10.
Qed.

Lemma frames_length `{RT : PyRuntime} self text frames :
  _frames_for_text self text = Ok frames →
  length frames
  = (2 * (length text * Z.to_nat (samples_per_symbol self)))%nat.
Proof.
  unfold _frames_for_text. intros H.
  apply frames_loop_Ok in H as (fs & Hfs & -> & _). rewrite app_nil_l.
  rewrite length_encode. f_equal. apply Forall2_length in Hfs. rewrite Hfs.
  clear. induction fs as [|f fs IH]; [done|].
  simpl. rewrite length_app, length_char_samples, IH. lia.
Qed.

Lemma synthesize_inv `{RT : PyRuntime} self text audio :
  synthesize self text = Ok audio →
  ∃ frames header,
    (0 < sample_rate self)%Z
    ∧ _frames_for_text self text = Ok frames
    ∧ wave_header 1 2 (sample_rate self) (Z.of_nat (length frames)) = Ok header
    ∧ audio = header ++ frames.
Proof.
  unfold synthesize. destruct (Z.leb_spec (sample_rate self) 0); [done|].
  destruct (_frames_for_text self text) as [frames|]; [|done]. cbn [res_bind].
  destruct (wave_header _ _ _ _) as [header|] eqn:Hh; [|done]. cbn [res_bind].
  intros [= <-]. by exists frames, header.
Qed.

(** The unsigned field of [width] bytes at [offset]. *)
Definition field (offset width : nat) (audio : list byte) : Z :=
  le_value (take width (drop offset audio)).



(** [synthesize] returns for no sample rate below 1 (the wave writer
    refuses it) and for none from 2^31 on (the byte rate does not fit its
    32-bit field), whatever the text. *)
Theorem synthesize_sample_rate_range `{RT : PyRuntime}
    (self : LibranSynthesizer) (text : str) (audio : list byte) :
  synthesize self text = Ok audio →
  (0 < sample_rate self < 2 ^ 31)%Z.
Proof.
  intros Hs. apply synthesize_inv in Hs as (frames & header & Hrate & _ & Hh & _).
  apply wave_header_inv in Hh as (_ & _ & _ & H3 & _). lia.
Qed.

Lemma synthesize_sample_rate_range_witness :
  (0 < sample_rate quiet_synthesizer < 2 ^ 31)%Z.
Proof.
  assert (∃ audio, synthesize (RT := basic_latin) quiet_synthesizer (py "a")
                   = Ok audio) as [audio Ha].
  { unfold synthesize. rewrite quiet_frames. by eexists. }
  exact (synthesize_sample_rate_range (RT := basic_latin) quiet_synthesizer
           (py "a") audio Ha).
Defined.

(** ** Frequencies *)

(** The table [base_map], read at a one-character key. *)
Definition base_frequency (c : N) : option Q :=
  if (c =? 97)%N then Some (440 # 1)
  else if (c =? 101)%N then Some (49388 # 100)
  else if (c =? 105)%N then Some (52325 # 100)
  else if (c =? 111)%N then Some (58733 # 100)
  else if (c =? 117)%N then Some (65925 # 100)
  else if (c =? 108)%N then Some (392 # 1)
  else if (c =? 114)%N then Some (4153 # 10)
  else if (c =? 110)%N then Some (34923 # 100)
  else if (c =? 115)%N then Some (32963 # 100)
  else None.

Lemma base_map_lookup c : base_map !! [c] = base_frequency c.
Proof.
  unfold base_map, base_frequency.
  change (py "a") with [97%N]. change (py "e") with [101%N].
  change (py "i") with [105%N]. change (py "o") with [111%N].
  change (py "u") with [117%N]. change (py "l") with [108%N].
  change (py "r") with [114%N]. change (py "n") with [110%N].
  change (py "s") with [115%N]. simpl list_to_map.
  repeat match goal with
  | |- context [(c =? ?n)%N] =>
      destruct (N.eqb_spec c n) as [->|?]; simpl;
      [by repeat (rewrite lookup_insert_ne by by inversion 1);
          rewrite lookup_insert_eq|
       rewrite lookup_insert_ne by (intros [=]; congruence)]
  end.
  by rewrite lookup_empty.
Qed.

(** The frequency of a Basic Latin character, as a function of its code
    point: the table, else the letter rule, else the digit rule, else 0. *)
Definition latin_frequency (c : N) : Q :=
  match base_frequency (lower_chr c) with
  | Some f => f
  | None =>
      if is_alpha c then
        (300 + inject_Z ((Z.of_N (lower_chr c) - 97) mod 26) * (25 # 2))%Q
      else if is_digit_09 c then (250 + inject_Z (Z.of_N c - 48) * 20)%Q
      else 0%Q
  end.

Lemma char_frequency_basic `{RT : PyRuntime} c :
  (c < 128)%N → _char_frequency [c] = Ok (latin_frequency c).
Proof.
  intros Hc. assert (basic [c]) as Hb by by constructor.
  unfold _char_frequency, latin_frequency.
  rewrite lower_basic, isalpha_basic, isdigit_basic by done.
  change (latin_lower [c]) with [lower_chr c]. rewrite base_map_lookup.
  destruct (base_frequency (lower_chr c)); [done|].
  unfold latin_isalpha, latin_isdigit. simpl. rewrite !andb_true_r.
  destruct (is_alpha c); [done|].
  destruct (is_digit_09 c) eqn:Hd; [|done]. by rewrite int_basic.
Qed.

Lemma latin_frequency_lower c : latin_frequency (lower_chr c) = latin_frequency c.
Proof.
  unfold latin_frequency. rewrite lower_chr_idem, is_alpha_lower.
  destruct (base_frequency (lower_chr c)); [done|].
  destruct (is_alpha c) eqn:Ha; [done|].
  assert (lower_chr c = c) as ->; [|done].
  revert Ha. chr_cases.
Qed.

Lemma latin_frequency_silent c :
  is_alnum c = false → latin_frequency c = 0%Q.
Proof.
  intros Hn. unfold is_alnum in Hn. apply orb_false_iff in Hn as [Ha Hd].
  unfold latin_frequency. rewrite Ha, Hd.
  assert (lower_chr c = c) as -> by (revert Ha; chr_cases).
  assert (base_frequency c = None) as ->; [|done].
  unfold base_frequency.
  repeat match goal with
  | |- context [(c =? ?n)%N] =>
      destruct (N.eqb_spec c n) as [->|?]; [by vm_compute in Ha|]
  end.
  done.
Qed.

Lemma base_frequency_range c f :
  base_frequency c = Some f → (250 <= f)%Q ∧ (f <= 65925 # 100)%Q.
Proof.
  unfold base_frequency.
  repeat (case_match; [intros [= <-]; split; by vm_compute|]). done.
Qed.

Lemma latin_frequency_audible c :
  is_alnum c = true →
  (250 <= latin_frequency c)%Q ∧ (latin_frequency c <= 65925 # 100)%Q.
Proof.
  intros Hn. unfold latin_frequency.
  destruct (base_frequency (lower_chr c)) as [f|] eqn:Hf;
    [by apply base_frequency_range in Hf|].
  unfold is_alnum in Hn. destruct (is_alpha c).
  - pose proof (Z.mod_pos_bound (Z.of_N (lower_chr c) - 97) 26 eq_refl) as Hm.
    set (offset := ((Z.of_N (lower_chr c) - 97) mod 26)%Z) in *.
    unfold Qle, Qplus, Qmult, inject_Z. simpl. lia.
  - simpl in Hn. rewrite Hn.
    assert (48 ≤ Z.of_N c ≤ 57)%Z as Hd.
    { revert Hn. unfold is_digit_09, in_range.
      rewrite andb_true_iff, !N.leb_le. lia. }
    unfold Qle, Qplus, Qmult, inject_Z. simpl. lia.
Qed.

(** On Basic Latin, [_char_frequency] raises nothing and does not tell
    capitals from small letters; it is 0 for every character that is neither
    a letter nor a digit, and between 250 and 659.25 Hz for every letter and
    digit, so that exactly the letters and digits sound. *)
Theorem char_frequency_basic_latin `{RT : PyRuntime} (c : N) :
  (c < 128)%N →
  ∃ f, _char_frequency [c] = Ok f
       ∧ _char_frequency [lower_chr c] = Ok f
       ∧ (is_alnum c = false → f = 0%Q)
       ∧ (is_alnum c = true → (250 <= f)%Q ∧ (f <= 65925 # 100)%Q)
       ∧ (Qeq_bool f 0 = negb (is_alnum c)).
Proof.
  intros Hc. exists (latin_frequency c).
  split; [by apply char_frequency_basic|].
  split.
  { rewrite char_frequency_basic by by apply basic_lower_chr.
    by rewrite latin_frequency_lower. }
  split; [apply latin_frequency_silent|].
  split; [apply latin_frequency_audible|].
  destruct (is_alnum c) eqn:Hn; simpl.
  - destruct (latin_frequency_audible c Hn) as [Hlo _].
    apply not_true_is_false. intros Hz. apply Qeq_bool_iff in Hz.
    rewrite Hz in Hlo. by vm_compute in Hlo.
  - by rewrite latin_frequency_silent.
Qed.

Lemma char_frequency_basic_latin_witness :
  ∃ f, _char_frequency (RT := basic_latin) (py "Z") = Ok f
       ∧ _char_frequency (RT := basic_latin) (py "z") = Ok f
       ∧ (250 <= f)%Q ∧ (f <= 65925 # 100)%Q.
Proof.
  destruct (char_frequency_basic_latin (RT := basic_latin) 90%N eq_refl)
    as (f & H1 & H2 & _ & H3 & _).
  exists f. split; [exact H1|]. split; [exact H2|]. exact (H3 eq_refl).
Defined.

(** ** The size of the audio *)

Lemma synthesize_length `{RT : PyRuntime} self text audio :
  synthesize self text = Ok audio →
  (0 < sample_rate self)%Z
  ∧ length audio
    = (44 + 2 * (length text * Z.to_nat (samples_per_symbol self)))%nat.
Proof.
  intros Hs. apply synthesize_inv in Hs as (frames & header & Hrate & Hf & Hh & ->).
  split; [done|]. apply wave_header_Ok in Hh as [_ H44].
  rewrite length_app, H44. f_equal. by apply frames_length.
Qed.

Lemma samples_per_symbol_monotone (self1 self2 : LibranSynthesizer) :
  sample_rate self1 = sample_rate self2 → (0 < sample_rate self1)%Z →
  (0 <= symbol_duration self1)%Q →
  (symbol_duration self1 <= symbol_duration self2)%Q →
  (samples_per_symbol self1 ≤ samples_per_symbol self2)%Z.
Proof.
  intros Hr Hpos H0 Hle. unfold samples_per_symbol. rewrite <- Hr.
  assert (0 <= inject_Z (sample_rate self1))%Q as Hrate
    by (unfold Qle; simpl; lia).
  rewrite !Q_to_int_floor.
  - apply Qfloor_resp_le. rewrite !(Qmult_comm (inject_Z (sample_rate self1))).
    by apply Qmult_le_compat_r.
  - apply Qmult_le_0_compat; [done|]. by apply Qle_trans with (symbol_duration self1).
  - by apply Qmult_le_0_compat.
Qed.

(** The audio grows with the text and with the symbol duration: of two
    texts the longer gives at least as many bytes, and so does the longer of
    two durations that are not negative, the other settings being equal. *)
Theorem synthesize_length_monotone `{RT : PyRuntime}
    (self1 self2 : LibranSynthesizer) (text1 text2 : str)
    (audio1 audio2 : list byte) :
  synthesize self1 text1 = Ok audio1 →
  synthesize self2 text2 = Ok audio2 →
  sample_rate self1 = sample_rate self2 →
  (0 <= symbol_duration self1)%Q →
  (symbol_duration self1 <= symbol_duration self2)%Q →
  length text1 ≤ length text2 →
  length audio1 ≤ length audio2.
Proof.
  intros H1 H2 Hr H0 Hd Hl.
  apply synthesize_length in H1 as [Hpos ->].
  apply synthesize_length in H2 as [_ ->].
  pose proof (samples_per_symbol_monotone self1 self2 Hr Hpos H0 Hd) as Hs.
  assert (Z.to_nat (samples_per_symbol self1)
          ≤ Z.to_nat (samples_per_symbol self2)) as Hn by lia.
  nia.
Qed.


Lemma synthesize_quiet :
  ∃ audio, synthesize (RT := basic_latin) quiet_synthesizer (py "a") = Ok audio.
Proof. unfold synthesize. rewrite quiet_frames. by eexists. Qed.

Lemma synthesize_quiet_empty :
  ∃ audio, synthesize (RT := basic_latin) quiet_synthesizer [] = Ok audio.
Proof. eexists. vm_compute. reflexivity. Qed.

Lemma synthesize_length_monotone_witness :
  ∃ audio1 audio2,
    synthesize (RT := basic_latin) quiet_synthesizer [] = Ok audio1
    ∧ synthesize (RT := basic_latin) quiet_synthesizer (py "a") = Ok audio2
    ∧ length audio1 ≤ length audio2.
Proof.
  destruct synthesize_quiet_empty as [audio1 H1].
  destruct synthesize_quiet as [audio2 H2].
  exists audio1, audio2. split; [exact H1|]. split; [exact H2|].
  exact (synthesize_length_monotone (RT := basic_latin) quiet_synthesizer
           quiet_synthesizer [] (py "a") audio1 audio2 H1 H2 eq_refl
           ltac:(by vm_compute) ltac:(by vm_compute) (Nat.le_0_l _)).
Defined.

(** ** Translating, then synthesizing *)



(** ** Silence *)



(** ** The pattern analysis of the tokenizer tool *)

(** *** Facts about the counters *)

(** The sum of the counts. *)
Definition counter_total `{Countable K} (counter : gmap K nat) : nat :=
  map_fold (λ _ n total, n + total) 0 counter.

Lemma counter_total_insert `{Countable K} (key : K) n (counter : gmap K nat) :
  counter !! key = None →
  counter_total (<[key := n]> counter) = n + counter_total counter.
Proof.
  intros Hk. unfold counter_total.
  rewrite map_fold_insert_L; [done| |done]. intros. lia.
Qed.

Lemma counter_total_count `{Countable K} (key : K) (counter : gmap K nat) :
  counter_total (count key counter) = S (counter_total counter).
Proof.
  unfold count. destruct (counter !! key) as [n|] eqn:Hk; simpl.
  - rewrite <- (insert_delete_eq counter key (S n)).
    rewrite counter_total_insert by apply lookup_delete_eq.
    rewrite <- (insert_id counter key n Hk) at 2.
    rewrite <- (insert_delete_eq counter key n).
    rewrite counter_total_insert by apply lookup_delete_eq. lia.
  - by rewrite counter_total_insert.
Qed.

Lemma count_keys `{Countable K} (key k : K) (counter : gmap K nat) :
  is_Some (count key counter !! k) → k = key ∨ is_Some (counter !! k).
Proof.
  unfold count. destruct (decide (k = key)) as [->|Hne]; [by left|].
  rewrite lookup_insert_ne by done. by right.
Qed.

Definition all_strings (values : list json_value) : Prop :=
  Forall (λ v, v ≠ JOther) values.

Lemma str_join_strings separator values :
  all_strings values → ∃ text, str_join separator values = Ok text.
Proof.
  induction 1 as [|v rest Hv _ [text IH]]; [by eexists|].
  destruct v as [s|]; [|done]. simpl. rewrite IH. by eexists.
Qed.

Lemma str_join_other separator values :
  ¬ all_strings values → str_join separator values = Raise TypeError.
Proof.
  induction values as [|v rest IH]; intros Hn.
  - destruct Hn. constructor.
  - destruct v as [s|]; [|done]. simpl. rewrite IH; [done|].
    intros Hr. apply Hn. by constructor.
Qed.

Lemma all_strings_dec values : all_strings values ∨ ¬ all_strings values.
Proof.
  induction values as [|v rest [IH|IH]].
  - left. constructor.
  - destruct v; [left; by constructor|right]. by inversion 1.
  - right. by inversion 1.
Qed.

Lemma foldl_count_length_total words counter :
  all_strings words →
  counter_total (foldl count_length counter words)
  = length words + counter_total counter.
Proof.
  intros Hall. revert counter.
  induction Hall as [|v rest Hv _ IH]; intros counter; [done|].
  destruct v as [s|]; [|done]. simpl. rewrite IH, counter_total_count. lia.
Qed.

Definition prefix_keys : list str := [py "un"; py "re"; py "pr"; py "di"].
Definition suffix_keys : list str := [py "ng"; py "ed"; py "ly"; py "er"; py "st"].

Lemma startswith_take_2 word :
  startswith word [py "un"; py "re"; py "pre"; py "dis"] = true →
  take 2 word ∈ prefix_keys.
Proof.
  unfold startswith, prefix_keys.
  change (py "un") with [117; 110]%N. change (py "re") with [114; 101]%N.
  change (py "pre") with [112; 114; 101]%N.
  change (py "dis") with [100; 105; 115]%N.
  change (py "pr") with [112; 114]%N. change (py "di") with [100; 105]%N.
  cbn [existsb length]. rewrite !orb_true_iff, !bool_decide_eq_true.
  intros [H|[H|[H|[H|H]]]]; [| | | |done].
  - rewrite H. set_solver.
  - rewrite H. set_solver.
  - replace (take 2 word) with (take 2 (take 3 word))
      by (rewrite take_take; f_equal; lia).
    rewrite H. set_solver.
  - replace (take 2 word) with (take 2 (take 3 word))
      by (rewrite take_take; f_equal; lia).
    rewrite H. set_solver.
Qed.

Lemma endswith_drop_2 word :
  2 < length word →
  endswith word [py "ing"; py "ed"; py "ly"; py "er"; py "est"] = true →
  drop (length word - 2) word ∈ suffix_keys.
Proof.
  intros Hlen. unfold endswith, suffix_keys.
  change (py "ing") with [105; 110; 103]%N. change (py "ed") with [101; 100]%N.
  change (py "ly") with [108; 121]%N. change (py "er") with [101; 114]%N.
  change (py "est") with [101; 115; 116]%N.
  change (py "ng") with [110; 103]%N. change (py "st") with [115; 116]%N.
  cbn [existsb length]. rewrite !orb_true_iff, !bool_decide_eq_true.
  assert (∀ s, drop (length word - 3) word = s →
               drop (length word - 2) word = drop 1 s) as H3.
  { intros s <-. rewrite drop_drop. f_equal. lia. }
  intros [H|[H|[H|[H|[H|H]]]]]; [| | | | |done].
  - rewrite (H3 _ H). unfold suffix_keys. set_solver.
  - rewrite H. unfold suffix_keys. set_solver.
  - rewrite H. unfold suffix_keys. set_solver.
  - rewrite H. unfold suffix_keys. set_solver.
  - rewrite (H3 _ H). unfold suffix_keys. set_solver.
Qed.

Lemma foldl_count_affixes_keys words counters :
  (∀ k, is_Some (counters.1 !! k) → k ∈ prefix_keys) →
  (∀ k, is_Some (counters.2 !! k) → k ∈ suffix_keys) →
  (∀ k, is_Some ((foldl count_affixes counters words).1 !! k) → k ∈ prefix_keys)
  ∧ (∀ k, is_Some ((foldl count_affixes counters words).2 !! k) → k ∈ suffix_keys).
Proof.
  revert counters. induction words as [|v rest IH]; intros counters H1 H2;
    [done|].
  simpl. apply IH.
  - intros k. unfold count_affixes. destruct v as [word|]; [|apply H1].
    destruct (Nat.ltb_spec 2 (length word)); [|apply H1]. cbn [fst snd].
    destruct (startswith word [py "un"; py "re"; py "pre"; py "dis"]) eqn:Hs;
      [|apply H1].
    intros [->|Hk]%count_keys; [by apply startswith_take_2|by apply H1].
  - intros k. unfold count_affixes. destruct v as [word|]; [|apply H2].
    destruct (Nat.ltb_spec 2 (length word)); [|apply H2]. cbn [fst snd].
    destruct (endswith word [py "ing"; py "ed"; py "ly"; py "er"; py "est"])
      eqn:He; [|apply H2].
    intros [->|Hk]%count_keys; [by apply endswith_drop_2|by apply H2].
Qed.

(** [analyze_libran_patterns] raises [TypeError], and nothing else, exactly
    when some value of the two dictionaries is not a string: joining the
    values comes first, so the later [isinstance] tests meet strings only. *)
Theorem analyze_libran_patterns_errors `{RT : PyRuntime}
    (ancient_dict modern_dict : list (str * json_value)) :
  (all_strings (map snd (ancient_dict ++ modern_dict)) →
   ∃ patterns, analyze_libran_patterns ancient_dict modern_dict = Ok patterns)
  ∧ (¬ all_strings (map snd (ancient_dict ++ modern_dict)) →
     analyze_libran_patterns ancient_dict modern_dict = Raise TypeError).
Proof.
  unfold analyze_libran_patterns. rewrite map_app. split.
  - intros [Ha Hm]%Forall_app.
    destruct (str_join_strings [space] _ Ha) as [ta ->].
    destruct (str_join_strings [space] _ Hm) as [tm ->]. by eexists.
  - intros Hn. destruct (all_strings_dec (map snd ancient_dict)) as [Ha|Ha].
    + destruct (str_join_strings [space] _ Ha) as [ta ->]. cbn [res_bind].
      rewrite str_join_other; [done|]. intros Hm. apply Hn.
      by apply Forall_app.
    + by rewrite str_join_other.
Qed.

Lemma analyze_libran_patterns_errors_witness :
  (∃ patterns,
     analyze_libran_patterns (RT := basic_latin)
       [(py "hello", JString (py "salve"))] [] = Ok patterns)
  ∧ analyze_libran_patterns (RT := basic_latin)
      [(py "hello", JString (py "salve"))] [(py "count", JOther)]
    = Raise TypeError.
Proof.
  split.
  - apply (analyze_libran_patterns_errors (RT := basic_latin)
             [(py "hello", JString (py "salve"))] []).
    by repeat constructor.
  - apply (analyze_libran_patterns_errors (RT := basic_latin)
             [(py "hello", JString (py "salve"))] [(py "count", JOther)]).
    intros H. apply Forall_cons in H as [_ H]. by apply Forall_cons in H as [H _].
Defined.

(** When [analyze_libran_patterns] returns, the word lengths counted are as
    many as the entries of the two dictionaries, and a prefix or a suffix is
    counted under its first or last two characters: the keys of [prefixes]
    are among [un], [re], [pr], [di] (never [pre] or [dis]) and those of
    [suffixes] among [ng], [ed], [ly], [er], [st] (never [ing] or [est]). *)
Theorem analyze_libran_patterns_counts `{RT : PyRuntime}
    (ancient_dict modern_dict : list (str * json_value))
    (patterns : pattern_analysis) :
  analyze_libran_patterns ancient_dict modern_dict = Ok patterns →
  counter_total (word_length_distribution patterns)
  = length ancient_dict + length modern_dict
  ∧ (∀ k, is_Some (prefixes patterns !! k) → k ∈ prefix_keys)
  ∧ (∀ k, is_Some (suffixes patterns !! k) → k ∈ suffix_keys).
Proof.
  intros Hok.
  destruct (all_strings_dec (map snd (ancient_dict ++ modern_dict))) as [Hs|Hs].
  2:{ exfalso. revert Hok. unfold analyze_libran_patterns.
      rewrite map_app in Hs.
      destruct (all_strings_dec (map snd ancient_dict)) as [Ha|Ha].
      - destruct (str_join_strings [space] _ Ha) as [ta ->]. cbn [res_bind].
        rewrite str_join_other; [done|]. intros Hm. apply Hs.
        by apply Forall_app.
      - by rewrite str_join_other. }
  revert Hok. unfold analyze_libran_patterns.
  destruct (str_join _ _) as [ta|]; [|done]. cbn [res_bind].
  destruct (str_join _ _) as [tm|]; [|done]. cbn [res_bind].
  intros [= <-]. simpl. rewrite <- map_app. split.
  - rewrite foldl_count_length_total by done.
    unfold counter_total. rewrite map_fold_empty, length_map, length_app. lia.
  - apply foldl_count_affixes_keys; simpl; intros k [x Hx];
      by rewrite lookup_empty in Hx.
Qed.

Lemma analyze_libran_patterns_counts_witness :
  ∃ patterns,
    analyze_libran_patterns (RT := basic_latin)
      [(py "again", JString (py "prelude")); (py "no", JString (py "un"))]
      [(py "fast", JString (py "fastest"))] = Ok patterns
    ∧ counter_total (word_length_distribution patterns) = 3
    ∧ prefixes patterns !! py "pr" = Some 1
    ∧ prefixes patterns !! py "pre" = None
    ∧ suffixes patterns !! py "st" = Some 1.
Proof.
  eexists. split; [reflexivity|].
  split.
  - refine (proj1 (analyze_libran_patterns_counts (RT := basic_latin)
      [(py "again", JString (py "prelude")); (py "no", JString (py "un"))]
      [(py "fast", JString (py "fastest"))] _ eq_refl)).
  - repeat split; vm_compute; reflexivity.
Defined.
